(** * dot_bracket_to_eff.py: dot-bracket parsing, Saenger inference, Phenix output

    A shallow embedding of the functions of [dot_bracket_to_eff.py] and the
    properties of them that the specification states.

    - A Python [str] is a list of Unicode code points ([N]).
    - A Python [int] is a [Z].
    - A [dict] is an association list in insertion order, which is the order
      [dict.items()] walks.
    - A function that can raise returns a [result].
    - What a function prints on [sys.stderr] is returned with its value. *)

From Stdlib Require Import ZArith NArith Ascii String DecimalString DecimalPos DecimalZ.
From stdpp Require Import base decidable option numbers functions list sorting gmap.

Local Open Scope Z_scope.

(** ** Strings *)

Abbreviation char := N (only parsing).

Definition chr (a : ascii) : char := N_of_ascii a.

(** The code points of an ASCII literal of the source. *)
Definition str (s : string) : list char := chr <$> list_ascii_of_string s.

(** ** Exceptions *)

(** The three f-strings that [parse_dotbracket] raises [ValueError] with,
    kept as the values they interpolate:
    - [f"Unmatched closing '{c}' at {idx}"]
    - [f"Unexpected character '{c}' at {idx}"]
    - [f"Unmatched opening '{k}' at {st}"] *)
Inductive message :=
  | UnmatchedClosing (c : char) (idx : Z)
  | UnexpectedCharacter (c : char) (idx : Z)
  | UnmatchedOpening (k : char) (st : list Z).

Inductive exn :=
  | ValueError (m : message)
  | KeyError (k : char)
  | IndexError.

Inductive result (A : Type) :=
  | Ok (a : A)
  | Raise (e : exn).
Arguments Ok {A} a.
Arguments Raise {A} e.

(** An exception raised by a statement ends the statements after it. *)
Global Instance result_bind : MBind result := λ A B f r,
  match r with
  | Ok a => f a
  | Raise e => Raise e
  end.

(** ** Dictionaries and lists of Python *)

Section dict.
Context {V : Type}.

(** [d.get(k)] *)
Fixpoint dict_get (d : list (char * V)) (k : char) : option V :=
  match d with
  | [] => None
  | (k', v) :: d => if decide (k = k') then Some v else dict_get d k
  end.

(** [k in d] *)
Definition dict_mem (k : char) (d : list (char * V)) : bool :=
  bool_decide (is_Some (dict_get d k)).

(** [d[k]] *)
Definition dict_item (d : list (char * V)) (k : char) : result V :=
  match dict_get d k with
  | Some v => Ok v
  | None => Raise (KeyError k)
  end.

(** The dictionary after the value held under [k] was changed in place
    to [v]: the key keeps its position. *)
Fixpoint dict_set (d : list (char * V)) (k : char) (v : V) : list (char * V) :=
  match d with
  | [] => []
  | (k', v') :: d =>
      if decide (k = k') then (k', v) :: d else (k', v') :: dict_set d k v
  end.
End dict.

(** [st.pop()]: the list without its last element, and that element. *)
Definition list_pop {A} (st : list A) : result (list A * A) :=
  match last st with
  | Some x => Ok (removelast st, x)
  | None => Raise IndexError
  end.

(** ** [str.strip()] *)

(** The code points for which [str.isspace] holds, which are the ones
    [strip()] removes at both ends. *)
Definition isspace (c : char) : bool :=
  ((9 <=? c) && (c <=? 13) || (28 <=? c) && (c <=? 32)
   || (c =? 133) || (c =? 160) || (c =? 5760)
   || (8192 <=? c) && (c <=? 8202)
   || (c =? 8232) || (c =? 8233) || (c =? 8239) || (c =? 8287)
   || (c =? 12288))%N.

Fixpoint lstrip (s : list char) : list char :=
  match s with
  | [] => []
  | c :: r => if isspace c then lstrip r else s
  end.

Definition rstrip (s : list char) : list char := reverse (lstrip (reverse s)).

Definition strip (s : list char) : list char := rstrip (lstrip s).

(** ** Dot-bracket parsing *)

(** [".()[]{}<>"] *)
Definition symbols : list char := str ".()[]{}<>".

(** [stacks = {'(': [], '[': [], '{': [], '<': []}] *)
Definition stacks0 : list (char * list Z) :=
  [(chr "(", []); (chr "[", []); (chr "{", []); (chr "<", [])].

(** [match = {')': '(', ']': '[', '}': '{', '>': '<'}] *)
Definition match_ : list (char * char) :=
  [(chr ")", chr "("); (chr "]", chr "["); (chr "}", chr "{"); (chr ">", chr "<")].

(** [s = "".join(c for c in dotbracket.strip() if c in ".()[]{}<>")] *)
Definition cleaned (dotbracket : list char) : list char :=
  filter (λ c, c ∈ symbols) (strip dotbracket).

(** The loop variables that one iteration reads and writes. *)
Definition state : Type := list (Z * Z) * list (char * list Z).

(** The body of [for idx, c in enumerate(s, start=start_resnum)]. *)
Definition step (idx : Z) (c : char) (σ : state) : result state :=
  let '(pairs, stacks) := σ in
  if dict_mem c stacks then
    st ← dict_item stacks c;
    Ok (pairs, dict_set stacks c (st ++ [idx]))
  else if dict_mem c match_ then
    left ← dict_item match_ c;
    st ← dict_item stacks left;
    if bool_decide (st = []) then Raise (ValueError (UnmatchedClosing c idx))
    else
      '(st', j) ← list_pop st;
      Ok (pairs ++ [(j, idx)], dict_set stacks left st')
  else if bool_decide (c ≠ chr ".") then
    Raise (ValueError (UnexpectedCharacter c idx))
  else Ok σ.

(** The loop over [enumerate(s, start=idx)]. *)
Fixpoint scan (idx : Z) (s : list char) (σ : state) : result state :=
  match s with
  | [] => Ok σ
  | c :: s => σ' ← step idx c σ; scan (idx + 1) s σ'
  end.

(** [for k, st in stacks.items(): if st: raise ValueError(...)] *)
Fixpoint check_closed (items : list (char * list Z)) : result unit :=
  match items with
  | [] => Ok tt
  | (k, st) :: items =>
      if bool_decide (st ≠ []) then Raise (ValueError (UnmatchedOpening k st))
      else check_closed items
  end.

(** The order of the keys [(x[0], x[1])]: tuples compare lexicographically. *)
Definition key_le (p q : Z * Z) : Prop :=
  p.1 < q.1 ∨ (p.1 = q.1 ∧ p.2 ≤ q.2).

Global Instance key_le_dec : RelDecision key_le.
Proof. intros p q. unfold key_le. apply _. Defined.

(** [pairs.sort(key=lambda x:(x[0], x[1]))]. The key is the whole pair and
    its order is total and antisymmetric, so the sorted list is the same
    for every sorting algorithm ([sort_pairs_unique] below). *)
Definition sort_pairs (pairs : list (Z * Z)) : list (Z * Z) :=
  merge_sort key_le pairs.

Definition parse_dotbracket (dotbracket : list char) (start_resnum : Z)
    : result (list (Z * Z)) :=
  let s := cleaned dotbracket in
  '(pairs, stacks) ← scan start_resnum s ([], stacks0);
  _ ← check_closed stacks;
  Ok (sort_pairs pairs).

(** [count_dot_length] *)
Definition count_dot_length (dotbracket : list char) : nat :=
  length (cleaned dotbracket).

(** ** Saenger inference *)

(** [s.replace(old, new)] for one-character [old] and [new]. *)
Definition replace (old new : char) (s : list char) : list char :=
  (λ c, if decide (c = old) then new else c) <$> s.

(** [s[i]] for an [int] index: a negative index counts from the end. *)
Definition str_item (s : list char) (i : Z) : result (list char) :=
  let n := Z.of_nat (length s) in
  let i := if decide (i < 0) then i + n else i in
  if decide (0 ≤ i) then
    match s !! Z.to_nat i with
    | Some c => Ok [c]
    | None => Raise IndexError
    end
  else Raise IndexError.

(** [l[idx]] for an index that [enumerate] counts from 0. *)
Definition list_item {A} (l : list A) (idx : nat) : result A :=
  match l !! idx with
  | Some x => Ok x
  | None => Raise IndexError
  end.

(** The two lines that [infer_saenger_for_pairs] prints on [sys.stderr],
    kept as the values they interpolate:
    - [f"Warning: residues {i}, {j} out of range for sequence length {n}"]
    - [f"Warning: cannot infer Saenger class for {seq[i0]}-{seq[j0]}"] *)
Inductive warning :=
  | OutOfRange (i j : Z) (n : Z)
  | CannotInfer (b1 b2 : list char).

Section saenger.
(** [str.upper] of one code point from 128 up. Python takes it from the
    Unicode character database, which is no part of the script; the
    letters of a sequence are all below 128. *)
Variable upper_other : char → list char.

Definition upper_char (c : char) : list char :=
  if decide (c < 128)%N then
    [if decide (chr "a" ≤ c ≤ chr "z")%N then (c - 32)%N else c]
  else upper_other c.

(** [s.upper()] *)
Definition upper (s : list char) : list char := s ≫= upper_char.

Definition infer_saenger_pair (b1 b2 : list char) : option Z :=
  let b1 := replace (chr "T") (chr "U") (upper b1) in
  let b2 := replace (chr "T") (chr "U") (upper b2) in
  let pair : gset (list char) := {[b1; b2]} in
  if decide (pair = {[str "G"; str "C"]}) then Some 19
  else if decide (pair = {[str "A"; str "U"]}) then Some 20
  else if decide (pair = {[str "G"; str "U"]}) then Some 28
  else None.

(** The loop of [infer_saenger_for_pairs]; [classes] is the list built so
    far and [stderr] the warnings printed so far. *)
Fixpoint infer_loop (pairs : list (Z * Z)) (seq : list char)
    (start_resnum : Z) (classes : list (option Z)) (stderr : list warning)
    : result (list (option Z) * list warning) :=
  match pairs with
  | [] => Ok (classes, stderr)
  | (i, j) :: pairs =>
      let n := Z.of_nat (length seq) in
      let i0 := i - start_resnum in
      let j0 := j - start_resnum in
      if bool_decide (¬ ((0 ≤ i0 < n) ∧ (0 ≤ j0 < n))) then
        infer_loop pairs seq start_resnum
          (classes ++ [None]) (stderr ++ [OutOfRange i j n])
      else
        b1 ← str_item seq i0;
        b2 ← str_item seq j0;
        let sclass := infer_saenger_pair b1 b2 in
        let stderr :=
          match sclass with
          | None => stderr ++ [CannotInfer b1 b2]
          | Some _ => stderr
          end in
        infer_loop pairs seq start_resnum (classes ++ [sclass]) stderr
  end.

(** The list that [infer_saenger_for_pairs] returns, and what it printed
    on [sys.stderr]. *)
Definition infer_saenger_for_pairs (pairs : list (Z * Z)) (seq : list char)
    (start_resnum : Z) : result (list (option Z) * list warning) :=
  infer_loop pairs seq start_resnum [] [].
End saenger.

(** ** Output formatting *)

(** What an f-string interpolates as a Saenger class: an inferred class is
    an [int], the override of the command line is a [str]. *)
Inductive value :=
  | Int (z : Z)
  | Str (s : list char).

(** [f"{i}"] for an [int]. *)
Definition format_int (i : Z) : list char :=
  str (DecimalString.NilZero.string_of_int (Z.to_int i)).

(** [f"{v}"] *)
Definition format_value (v : value) : list char :=
  match v with
  | Int z => format_int z
  | Str s => s
  end.

(** [sep.join(parts)] *)
Fixpoint join (sep : list char) (parts : list (list char)) : list char :=
  match parts with
  | [] => []
  | [p] => p
  | p :: parts => p ++ sep ++ join sep parts
  end.

(** [format_qrnas] *)
Definition format_qrnas (pairs : list (Z * Z)) (chain : list char)
    : list (list char) :=
  (λ '(i, j), str "BASEPAIR   " ++ chain ++ str "/" ++ format_int i
              ++ str "   " ++ chain ++ str "/" ++ format_int j) <$> pairs.

(** The loop of [format_phenix] from index [idx] on; [out] is the list of
    lines built so far. *)
Fixpoint format_loop (idx : nat) (pairs : list (Z * Z)) (chain : list char)
    (saenger_list : list (option Z)) (override : option value)
    (out : list (list char)) : result (list (list char)) :=
  match pairs with
  | [] => Ok out
  | (i, j) :: pairs =>
      let out := out ++ [str "      base_pair {"] in
      let out := out ++ [str "        base1 = chain '" ++ chain
                           ++ str "' and resid " ++ format_int i] in
      let out := out ++ [str "        base2 = chain '" ++ chain
                           ++ str "' and resid " ++ format_int j] in
      sclass ← list_item saenger_list idx;
      let sclass := Int <$> sclass in
      let sclass := if override is Some v then Some v else sclass in
      let out :=
        if sclass is Some v
        then out ++ [str "        saenger_class = " ++ format_value v]
        else out in
      let out := out ++ [str "      }"] in
      format_loop (S idx) pairs chain saenger_list override out
  end.

Definition format_phenix (pairs : list (Z * Z)) (chain : list char)
    (saenger_list : list (option Z)) (override : option value)
    : result (list char) :=
  let out := [] in
  let out := out ++ [str "pdb_interpretation {"] in
  let out := out ++ [str "  secondary_structure {"] in
  let out := out ++ [str "    nucleic_acid {"] in
  out ← format_loop 0 pairs chain saenger_list override out;
  let out := out ++ [str "    }"] in
  let out := out ++ [str "  }"] in
  let out := out ++ [str "}"] in
  Ok (join [10%N] out).

(** * Vocabulary of the properties *)

(** ** The four bracket types *)

Inductive bracket := Round | Square | Curly | Angle.

Global Instance bracket_eq_dec : EqDecision bracket.
Proof. solve_decision. Defined.

Definition brackets : list bracket := [Round; Square; Curly; Angle].

Definition opener (k : bracket) : char :=
  match k with
  | Round => chr "("
  | Square => chr "["
  | Curly => chr "{"
  | Angle => chr "<"
  end.

Definition closer (k : bracket) : char :=
  match k with
  | Round => chr ")"
  | Square => chr "]"
  | Curly => chr "}"
  | Angle => chr ">"
  end.

(** The dictionary [stacks] that holds the list [f k] under the opening
    symbol of [k]: the four keys never change, only the lists under them. *)
Definition shaped (f : bracket → list Z) : list (char * list Z) :=
  (λ k, (opener k, f k)) <$> brackets.

(** What one iteration does, read off the symbol. *)
Inductive step_spec (idx : Z) (c : char) (pairs : list (Z * Z))
    (f : bracket → list Z) : result state → Prop :=
  | step_open k :
      c = opener k →
      step_spec idx c pairs f (Ok (pairs, shaped (<[k := f k ++ [idx]]> f)))
  | step_close k st j :
      c = closer k → f k = st ++ [j] →
      step_spec idx c pairs f (Ok (pairs ++ [(j, idx)], shaped (<[k := st]> f)))
  | step_close_empty k :
      c = closer k → f k = [] →
      step_spec idx c pairs f (Raise (ValueError (UnmatchedClosing c idx)))
  | step_dot :
      c = chr "." →
      step_spec idx c pairs f (Ok (pairs, shaped f))
  | step_foreign :
      c ∉ symbols →
      step_spec idx c pairs f (Raise (ValueError (UnexpectedCharacter c idx))).

(** ** The three ways [parse_dotbracket] ends *)

Inductive parse_spec (dotbracket : list char) (start_resnum : Z)
    : result (list (Z * Z)) → Prop :=
  | parse_ok pairs :
      scan start_resnum (cleaned dotbracket) ([], stacks0)
        = Ok (pairs, stacks0) →
      parse_spec dotbracket start_resnum (Ok (sort_pairs pairs))
  | parse_unclosed pairs f k :
      scan start_resnum (cleaned dotbracket) ([], stacks0)
        = Ok (pairs, shaped f) →
      f k ≠ [] →
      parse_spec dotbracket start_resnum
        (Raise (ValueError (UnmatchedOpening (opener k) (f k))))
  | parse_unopened e :
      scan start_resnum (cleaned dotbracket) ([], stacks0) = Raise e →
      parse_spec dotbracket start_resnum (Raise e).

(** ** Unmatched opening symbols *)

(** How one symbol changes the number [d] of opening symbols of type [k]
    that are still unmatched: an opening symbol is one more, a closing
    symbol matches the latest of them, if there is one. *)
Definition tally (k : bracket) (d : nat) (c : char) : nat :=
  if decide (c = opener k) then S d
  else if decide (c = closer k) then pred d
  else d.

(** The number of opening symbols of type [k] in [s] that no later symbol
    of [s] closes. *)
Definition unmatched (k : bracket) (s : list char) : nat :=
  foldl (tally k) 0%nat s.

(** Some closing symbol of the string has no unmatched opening symbol of
    its type before it. *)
Definition closing_without_opening (s : list char) : Prop :=
  ∃ k p r, s = p ++ closer k :: r ∧ unmatched k p = 0%nat.

(** Some opening symbol of the string is unmatched at its end. *)
Definition opening_left_unmatched (s : list char) : Prop :=
  ∃ k, unmatched k s ≠ 0%nat.

(** The symbols of type [k] in [s] nest, from [d] unmatched opening
    symbols on: no closing symbol comes without one, and none is left. *)
Fixpoint nested (k : bracket) (d : nat) (s : list char) : bool :=
  match s with
  | [] => bool_decide (d = 0%nat)
  | c :: s =>
      if decide (c = opener k) then nested k (S d) s
      else if decide (c = closer k) then
        match d with
        | O => false
        | S d => nested k d s
        end
      else nested k d s
  end.

(** A balanced string: for each bracket type, every opening symbol is
    matched by a later closing symbol and every closing symbol by an
    earlier opening symbol. *)
Definition balanced (s : list char) : bool :=
  forallb (λ k, nested k 0 s) brackets.

(** The bracket (non-dot) characters of a cleaned string. *)
Definition bracket_count (s : list char) : nat :=
  length (filter (λ c, c ≠ chr ".") s).

(** The indices held by the four stacks. *)
Definition stack_items (f : bracket → list Z) : list Z :=
  f Round ++ f Square ++ f Curly ++ f Angle.

(** The indices that the pairs use. *)
Definition indices (pairs : list (Z * Z)) : list Z :=
  pairs ≫= λ '(i, j), [i; j].

(** What holds of the loop variables before the iteration at index [idx]:
    the indices on the stacks and in the pairs lie from [start] up to
    [idx], a pair has its smaller index first, and no index is held twice. *)
Definition index_invariant (start idx : Z) (pairs : list (Z * Z))
    (f : bracket → list Z) : Prop :=
  start ≤ idx
  ∧ (∀ x, x ∈ stack_items f → start ≤ x < idx)
  ∧ (∀ i j, (i, j) ∈ pairs → start ≤ i ∧ i < j ∧ j < idx)
  ∧ NoDup (indices pairs ++ stack_items f).

(** ** Nucleotides *)

(** The letters of a sequence, in either case. *)
Definition nucleotide_letters : list char := str "ACGUTacgut".

Inductive base := Ade | Cyt | Gua | Ura.

(** The nucleotide that a letter stands for: case is ignored and T is
    read as U. *)
Definition base_of (c : char) : option base :=
  if decide (c ∈ str "Aa") then Some Ade
  else if decide (c ∈ str "Cc") then Some Cyt
  else if decide (c ∈ str "Gg") then Some Gua
  else if decide (c ∈ str "UuTt") then Some Ura
  else None.

(** The table of the specification: G/C is 19, A/U is 20, G/U is 28, in
    either order, and nothing else has a class. *)
Definition saenger_table (x y : base) : option Z :=
  match x, y with
  | Gua, Cyt | Cyt, Gua => Some 19
  | Ade, Ura | Ura, Ade => Some 20
  | Gua, Ura | Ura, Gua => Some 28
  | _, _ => None
  end.

(** ** The text of a Phenix block *)

(** The lines of one [base_pair] block that carries the class [sclass]. *)
Definition base_pair_block (chain : list char) (sclass : option value)
    (p : Z * Z) : list (list char) :=
  [str "      base_pair {";
   str "        base1 = chain '" ++ chain ++ str "' and resid " ++ format_int p.1;
   str "        base2 = chain '" ++ chain ++ str "' and resid " ++ format_int p.2]
  ++ match sclass with
     | Some v => [str "        saenger_class = " ++ format_value v]
     | None => []
     end
  ++ [str "      }"].

(** The lines around the blocks. *)
Definition phenix_header : list (list char) :=
  [str "pdb_interpretation {"; str "  secondary_structure {";
   str "    nucleic_acid {"].

Definition phenix_footer : list (list char) :=
  [str "    }"; str "  }"; str "}"].

(** ** Symbols at residue indices *)

(** The symbol [c] stands at residue index [x] of the cleaned string [w]
    that is numbered from [start]. *)
Definition symbol_at (start : Z) (w : list char) (x : Z) (c : char) : Prop :=
  start ≤ x ∧ w !! Z.to_nat (x - start) = Some c.

(** Two pairs of brackets of one type cross when the second opens inside
    the first and closes outside it. *)
Definition crossing (p q : Z * Z) : Prop :=
  p.1 < q.1 ∧ q.1 < p.2 ∧ p.2 < q.2.

(** What holds of the loop variables before the iteration at index [idx]
    of the cleaned string [w]: beyond [index_invariant], every index on the
    stack of a type holds the opening symbol of that type, every pair joins
    an opening symbol with the closing symbol of its type, every bracket
    before [idx] is on a stack or in a pair, every stack is increasing, and
    neither an index on a stack nor a second pair of the same type lies
    across a pair. *)
Definition matching_invariant (start : Z) (w : list char) (idx : Z)
    (pairs : list (Z * Z)) (f : bracket → list Z) : Prop :=
  index_invariant start idx pairs f
  ∧ (∀ k x, x ∈ f k → symbol_at start w x (opener k))
  ∧ (∀ i j, (i, j) ∈ pairs →
       ∃ k, symbol_at start w i (opener k) ∧ symbol_at start w j (closer k))
  ∧ (∀ x c, x < idx → symbol_at start w x c → c ≠ chr "." →
       x ∈ indices pairs ++ stack_items f)
  ∧ (∀ k, StronglySorted Z.lt (f k))
  ∧ (∀ k x i j, x ∈ f k → (i, j) ∈ pairs →
       symbol_at start w i (opener k) → x < i ∨ j < x)
  ∧ (∀ k p q, p ∈ pairs → q ∈ pairs →
       symbol_at start w p.1 (opener k) → symbol_at start w q.1 (opener k) →
       ¬ crossing p q).

(** The pair with both residue numbers moved by [d]. *)
Definition shift (d : Z) (p : Z * Z) : Z * Z := (p.1 + d, p.2 + d).

(** The place of a bracket type among the keys of [stacks], which is the
    order in which the check after the loop visits the stacks. *)
Definition bracket_rank (k : bracket) : nat :=
  match k with
  | Round => 0
  | Square => 1
  | Curly => 2
  | Angle => 3
  end.

(** ** FASTA loading *)

(** [s.startswith(prefix)] *)
Definition startswith (s prefix : list char) : bool :=
  bool_decide (prefix `prefix_of` s).

Section fasta.
Variable upper_other : char → list char.

(** The inner loop of [load_fasta_file], [for c in line], from the list
    [seq_chars] built so far. *)
Fixpoint load_line (line : list char) (seq_chars : list (list char))
    : list (list char) :=
  match line with
  | [] => seq_chars
  | c :: line =>
      let cu := upper upper_other [c] in
      if decide (cu ∈ [str "A"; str "C"; str "G"; str "U"; str "T"])
      then load_line line (seq_chars ++ [cu])
      else load_line line seq_chars
  end.

(** The outer loop of [load_fasta_file], [for line in fh]. *)
Fixpoint load_lines (fh : list (list char)) (seq_chars : list (list char))
    : list (list char) :=
  match fh with
  | [] => seq_chars
  | line :: fh =>
      let line := strip line in
      if bool_decide (line = []) || startswith line (str ">")
      then load_lines fh seq_chars
      else load_lines fh (load_line line seq_chars)
  end.

(** [load_fasta_file], on the lines that iterating the opened file yields. *)
Definition load_fasta_file (fh : list (list char)) : list char :=
  join [] (load_lines fh []).
End fasta.

(** ** Pairs on a sequence *)

(** The two letters of the sequence that a pair joins, when both of its
    residue numbers lie on the sequence numbered from [start]. *)
Definition bases_at (seq : list char) (start : Z) (p : Z * Z)
    : option (char * char) :=
  if decide (0 ≤ p.1 - start < Z.of_nat (length seq)
             ∧ 0 ≤ p.2 - start < Z.of_nat (length seq))
  then c1 ← seq !! Z.to_nat (p.1 - start);
       c2 ← seq !! Z.to_nat (p.2 - start);
       Some (c1, c2)
  else None.

(** The class that a pair is given. *)
Definition class_of (upper_other : char → list char) (seq : list char)
    (start : Z) (p : Z * Z) : option Z :=
  '(c1, c2) ← bases_at seq start p;
  infer_saenger_pair upper_other [c1] [c2].

(** The warning that a pair causes, if any. *)
Definition warning_of (upper_other : char → list char) (seq : list char)
    (start : Z) (p : Z * Z) : list warning :=
  match bases_at seq start p with
  | None => [OutOfRange p.1 p.2 (Z.of_nat (length seq))]
  | Some (c1, c2) =>
      match infer_saenger_pair upper_other [c1] [c2] with
      | None => [CannotInfer [c1] [c2]]
      | Some _ => []
      end
  end.

(** The class that a block carries: the override if there is one, else
    the class of the list. *)
Definition resolved_class (override : option value) (sclass : option Z)
    : option value :=
  match override with
  | Some v => Some v
  | None => Int <$> sclass
  end.

(** ** The script *)

(** The three values that [--format] accepts. *)
Inductive format_choice := Qrnas | Phenix | Both.

Global Instance format_choice_eq_dec : EqDecision format_choice.
Proof. solve_decision. Defined.

(** The parsed command line. *)
Record args := Args {
  args_fasta : list char;
  args_secstruct : list char;
  args_chain : list char;
  args_start : Z;
  args_format : format_choice;
  args_saenger : option (list char)
}.

(** What the two paths lead to: [None] where [os.path.exists] is false,
    else the lines that iterating the FASTA file yields and the text that
    reading the structure file yields. *)
Record files := Files {
  fasta_lines : option (list (list char));
  secstruct_text : option (list char)
}.

(** How the script ends: it runs to its end, it leaves through
    [sys.exit] with a message, or an exception is not caught. *)
Inductive outcome :=
  | Returns
  | Exits (message : list char)
  | Raises (e : exn).

(** What a run of the script leaves behind. *)
Record run := Run {
  run_stdout : list char;
  run_stderr : list warning;
  run_outcome : outcome
}.

(** [print(s)] *)
Definition print (s : list char) (stdout : list char) : list char :=
  stdout ++ s ++ [10%N].

(** The body under [if __name__ == "__main__"], after [ap.parse_args()]. *)
Definition main (upper_other : char → list char) (a : args) (fs : files)
    : run :=
  match fasta_lines fs with
  | None =>
      Run [] [] (Exits (str "Error: FASTA file '" ++ args_fasta a
                        ++ str "' not found."))
  | Some fh =>
      let seq := load_fasta_file upper_other fh in
      match secstruct_text fs with
      | None =>
          Run [] [] (Exits (str "Error: structure file '" ++ args_secstruct a
                            ++ str "' not found."))
      | Some dot =>
          match parse_dotbracket dot (args_start a) with
          | Raise e => Run [] [] (Raises e)
          | Ok pairs =>
              match infer_saenger_for_pairs upper_other pairs seq
                      (args_start a) with
              | Raise e => Run [] [] (Raises e)
              | Ok (saenger_list, stderr) =>
                  let stdout := [] in
                  let stdout :=
                    if decide (args_format a ∈ [Qrnas; Both])
                    then foldl (λ stdout line, print line stdout) stdout
                           (format_qrnas pairs (args_chain a))
                    else stdout in
                  if decide (args_format a ∈ [Phenix; Both]) then
                    let stdout :=
                      if decide (args_format a = Both)
                      then print [] stdout else stdout in
                    match format_phenix pairs (args_chain a) saenger_list
                            (Str <$> args_saenger a) with
                    | Raise e => Run stdout stderr (Raises e)
                    | Ok text => Run (print text stdout) stderr Returns
                    end
                  else Run stdout stderr Returns
              end
          end
      end
  end.

(** * Properties *)

Lemma stacks0_shaped : stacks0 = shaped (λ _, []).
Proof. reflexivity. Qed.

Lemma elem_of_brackets k : k ∈ brackets.
Proof. destruct k; unfold brackets; set_solver. Qed.

Lemma elem_of_symbols c :
  c ∈ symbols ↔ c = chr "." ∨ ∃ k, c = opener k ∨ c = closer k.
Proof.
  unfold symbols. split.
  - intros Hc. repeat (apply elem_of_cons in Hc as [->|Hc]);
      [by left | right ..].
    + exists Round; by left.
    + exists Round; by right.
    + exists Square; by left.
    + exists Square; by right.
    + exists Curly; by left.
    + exists Curly; by right.
    + exists Angle; by left.
    + exists Angle; by right.
    + by apply elem_of_nil in Hc.
  - intros [->|[k [->| ->]]]; [|destruct k..]; vm_compute; set_solver.
Qed.

Lemma opener_closer k k' : opener k ≠ closer k'.
Proof. by destruct k, k'. Qed.

Lemma opener_inj : Inj (=) (=) opener.
Proof. by intros [] []. Qed.

Lemma closer_inj : Inj (=) (=) closer.
Proof. by intros [] []. Qed.

Lemma opener_not_dot k : opener k ≠ chr ".".
Proof. by destruct k. Qed.

Lemma closer_not_dot k : closer k ≠ chr ".".
Proof. by destruct k. Qed.

Lemma dict_get_shaped_opener f k : dict_get (shaped f) (opener k) = Some (f k).
Proof. by destruct k. Qed.

Lemma dict_get_shaped_other f c :
  (∀ k, c ≠ opener k) → dict_get (shaped f) c = None.
Proof.
  intros Hc. unfold shaped, brackets. cbn [fmap list_fmap dict_get].
  by rewrite !decide_False by apply Hc.
Qed.

Lemma dict_set_shaped f k v :
  dict_set (shaped f) (opener k) v = shaped (<[k := v]> f).
Proof. by destruct k. Qed.

Lemma dict_get_match_closer k : dict_get match_ (closer k) = Some (opener k).
Proof. by destruct k. Qed.

Lemma dict_get_match_other c :
  (∀ k, c ≠ closer k) → dict_get match_ c = None.
Proof.
  intros Hc. unfold match_. cbn [dict_get].
  rewrite decide_False by apply (Hc Round).
  rewrite decide_False by apply (Hc Square).
  rewrite decide_False by apply (Hc Curly).
  by rewrite decide_False by apply (Hc Angle).
Qed.

Lemma step_shaped idx c pairs f :
  step_spec idx c pairs f (step idx c (pairs, shaped f)).
Proof.
  unfold step, dict_mem, dict_item.
  destruct (decide (c ∈ symbols)) as [Hc|Hc].
  - apply elem_of_symbols in Hc as [->|[k [->| ->]]].
    + rewrite dict_get_shaped_other by (by intros []).
      rewrite dict_get_match_other by (by intros []).
      rewrite !bool_decide_eq_false_2 by (try apply is_Some_None; naive_solver).
      by apply step_dot.
    + rewrite dict_get_shaped_opener, bool_decide_eq_true_2 by done.
      cbn [mbind result_bind]. rewrite dict_set_shaped. by apply step_open.
    + rewrite dict_get_shaped_other by (intros k'; apply not_eq_sym, opener_closer).
      rewrite dict_get_match_closer.
      rewrite bool_decide_eq_false_2 by apply is_Some_None.
      rewrite bool_decide_eq_true_2 by done. cbn [mbind result_bind].
      rewrite dict_get_shaped_opener. cbn [mbind result_bind].
      destruct (f k) as [|j st _] eqn:Hk using rev_ind.
      * by eapply step_close_empty.
      * rewrite bool_decide_eq_false_2 by (by destruct st).
        unfold list_pop. rewrite last_snoc, removelast_last. cbn [mbind result_bind].
        rewrite dict_set_shaped. by eapply step_close.
  - rewrite dict_get_shaped_other, dict_get_match_other.
    + rewrite !bool_decide_eq_false_2 by apply is_Some_None.
      rewrite bool_decide_eq_true_2; [by apply step_foreign|].
      intros ->. apply Hc, elem_of_symbols. by left.
    + intros k ->. apply Hc, elem_of_symbols. eauto.
    + intros k ->. apply Hc, elem_of_symbols. eauto.
Qed.

Lemma tally_opener k d : tally k d (opener k) = S d.
Proof. unfold tally. by rewrite decide_True. Qed.

Lemma tally_closer k d : tally k d (closer k) = pred d.
Proof.
  unfold tally. rewrite decide_False by apply not_eq_sym, opener_closer.
  by rewrite decide_True.
Qed.

Lemma tally_opener_ne k k' d : k ≠ k' → tally k d (opener k') = d.
Proof.
  intros Hk. unfold tally.
  rewrite decide_False by (intros ?%opener_inj; done).
  by rewrite decide_False by apply opener_closer.
Qed.

Lemma tally_closer_ne k k' d : k ≠ k' → tally k d (closer k') = d.
Proof.
  intros Hk. unfold tally.
  rewrite decide_False by apply not_eq_sym, opener_closer.
  by rewrite decide_False by (intros ?%closer_inj; done).
Qed.

Lemma tally_dot k d : tally k d (chr ".") = d.
Proof.
  unfold tally. rewrite decide_False by apply not_eq_sym, opener_not_dot.
  by rewrite decide_False by apply not_eq_sym, closer_not_dot.
Qed.

Lemma tally_foreign k d c : c ∉ symbols → tally k d c = d.
Proof.
  intros Hc. unfold tally.
  rewrite !decide_False; [done|..]; intros ->; apply Hc, elem_of_symbols; eauto.
Qed.

Lemma length_push (f : bracket → list Z) k k' x :
  length (<[k' := f k' ++ [x]]> f k) = tally k (length (f k)) (opener k').
Proof.
  destruct (decide (k = k')) as [->|Hk].
  - rewrite fn_lookup_insert, tally_opener, length_app. simpl. lia.
  - by rewrite fn_lookup_insert_ne, tally_opener_ne.
Qed.

Lemma length_pop (f : bracket → list Z) k k' st j :
  f k' = st ++ [j] →
  length (<[k' := st]> f k) = tally k (length (f k)) (closer k').
Proof.
  intros Hk'. destruct (decide (k = k')) as [->|Hk].
  - rewrite fn_lookup_insert, tally_closer, Hk', length_app. simpl. lia.
  - by rewrite fn_lookup_insert_ne, tally_closer_ne.
Qed.

Lemma stack_items_push (f : bracket → list Z) k x :
  stack_items (<[k := f k ++ [x]]> f) ≡ₚ x :: stack_items f.
Proof. destruct k; unfold stack_items; simpl; solve_Permutation. Qed.

Lemma stack_items_pop (f : bracket → list Z) k st j :
  f k = st ++ [j] → stack_items f ≡ₚ j :: stack_items (<[k := st]> f).
Proof.
  intros Hk. destruct k; unfold stack_items; simpl; rewrite Hk;
    solve_Permutation.
Qed.

Lemma bracket_count_cons c s :
  bracket_count (c :: s)
  = ((if decide (c = chr ".") then 0 else 1) + bracket_count s)%nat.
Proof.
  unfold bracket_count. rewrite filter_cons.
  destruct (decide (c = chr ".")) as [->|Hc].
  - by rewrite decide_False by (intros H; by apply H).
  - by rewrite decide_True.
Qed.

(** ** The loop on a string *)

(** A run of the loop that ends keeps the shape of [stacks]; the lengths
    of the stacks follow the tally, no closing symbol came on an empty
    stack, and every bracket symbol is in a pair twice or on a stack. *)
Lemma scan_ok s : ∀ idx pairs f pairs' d',
  scan idx s (pairs, shaped f) = Ok (pairs', d') →
  ∃ f', d' = shaped f'
    ∧ (∀ k, length (f' k) = foldl (tally k) (length (f k)) s)
    ∧ (∀ k p r, s = p ++ closer k :: r →
         foldl (tally k) (length (f k)) p ≠ 0%nat)
    ∧ (2 * length pairs' + length (stack_items f')
       = 2 * length pairs + length (stack_items f) + bracket_count s)%nat.
Proof.
  induction s as [|c s IH]; intros idx pairs f pairs' d'; cbn [scan].
  - intros [= <- <-]. exists f. split_and!; [done..| |].
    + intros k p r Hs. by destruct p.
    + unfold bracket_count. simpl. lia.
  - rewrite bracket_count_cons.
    destruct (step_shaped idx c pairs f) as [k' ->|k' st j -> Hk'|k' -> Hk'| ->|Hc];
      cbn [mbind result_bind]; [| | done | | done].
    + intros (f' & -> & Hlen & Hcl & Hcnt)%IH. exists f'. split_and!; [done|..].
      * intros k. by rewrite Hlen, length_push.
      * intros k [|c p] r; [intros [= Hc%opener_closer]; done|].
        intros [= <- ->]. cbn [foldl].
        specialize (Hcl k p r eq_refl). by rewrite length_push in Hcl.
      * rewrite Hcnt, stack_items_push.
        rewrite decide_False by apply opener_not_dot. simpl. lia.
    + intros (f' & -> & Hlen & Hcl & Hcnt)%IH. exists f'. split_and!; [done|..].
      * intros k. by rewrite Hlen, (length_pop _ _ _ _ _ Hk').
      * intros k [|c p] r.
        -- intros [= ->%closer_inj]. rewrite Hk', length_app. simpl. lia.
        -- intros [= <- ->]. cbn [foldl]. specialize (Hcl k p r eq_refl).
           by rewrite (length_pop _ _ _ _ _ Hk') in Hcl.
      * rewrite Hcnt, (stack_items_pop _ _ _ _ Hk'), length_app.
        rewrite decide_False by apply closer_not_dot. simpl. lia.
    + intros (f' & -> & Hlen & Hcl & Hcnt)%IH. exists f'. split_and!; [done|..].
      * intros k. cbn [foldl]. by rewrite Hlen, tally_dot.
      * intros k [|c p] r; [intros [= Hc]; by destruct k|].
        intros [= <- ->]. cbn [foldl]. rewrite tally_dot. by eapply Hcl.
      * rewrite Hcnt, decide_True by done. lia.
Qed.

(** A run of the loop over symbols that ends in an exception met a closing
    symbol at a point where no opening symbol of its type was unmatched. *)
Lemma scan_raise s : ∀ idx pairs f e,
  Forall (λ c, c ∈ symbols) s →
  scan idx s (pairs, shaped f) = Raise e →
  ∃ k p r, s = p ++ closer k :: r
    ∧ foldl (tally k) (length (f k)) p = 0%nat
    ∧ e = ValueError (UnmatchedClosing (closer k) (idx + Z.of_nat (length p))).
Proof.
  induction s as [|c s IH]; intros idx pairs f e Hs; cbn [scan]; [done|].
  apply Forall_cons in Hs as [Hc Hs].
  destruct (step_shaped idx c pairs f) as [k' ->|k' st j -> Hk'|k' -> Hk'| ->|Hc'];
    cbn [mbind result_bind]; [| | | |done].
  - intros (k & p & r & -> & Hp & ->)%IH; [|done].
    exists k, (opener k' :: p), r. split_and!; [done|..].
    + cbn [foldl]. by rewrite length_push in Hp.
    + do 2 f_equal. rewrite length_cons. lia.
  - intros (k & p & r & -> & Hp & ->)%IH; [|done].
    exists k, (closer k' :: p), r. split_and!; [done|..].
    + cbn [foldl]. by rewrite (length_pop _ _ _ _ _ Hk') in Hp.
    + do 2 f_equal. rewrite length_cons. lia.
  - intros [= <-]. exists k', [], s. split_and!; [done|..].
    + simpl. by rewrite Hk'.
    + do 2 f_equal. simpl. lia.
  - intros (k & p & r & -> & Hp & ->)%IH; [|done].
    exists k, (chr "." :: p), r. split_and!; [done|..].
    + cbn [foldl]. by rewrite tally_dot.
    + do 2 f_equal. rewrite length_cons. lia.
Qed.

(** An invariant of the loop variables that the three kinds of symbol keep
    holds when the loop ends. *)
Lemma scan_invariant (I : Z → list (Z * Z) → (bracket → list Z) → Prop) :
  (∀ idx pairs f k,
     I idx pairs f → I (idx + 1) pairs (<[k := f k ++ [idx]]> f)) →
  (∀ idx pairs f k st j,
     I idx pairs f → f k = st ++ [j] →
     I (idx + 1) (pairs ++ [(j, idx)]) (<[k := st]> f)) →
  (∀ idx pairs f, I idx pairs f → I (idx + 1) pairs f) →
  ∀ s idx pairs f pairs' d',
    I idx pairs f →
    scan idx s (pairs, shaped f) = Ok (pairs', d') →
    ∃ f', d' = shaped f' ∧ I (idx + Z.of_nat (length s)) pairs' f'.
Proof.
  intros Hopen Hclose Hdot.
  induction s as [|c s IH]; intros idx pairs f pairs' d' HI; cbn [scan].
  - intros [= <- <-]. exists f. split; [done|].
    by replace (idx + Z.of_nat (length (@nil char))) with idx by (simpl; lia).
  - replace (idx + Z.of_nat (length (c :: s))) with (idx + 1 + Z.of_nat (length s))
      by (rewrite length_cons; lia).
    destruct (step_shaped idx c pairs f) as [k' ->|k' st j -> Hk'|k' -> Hk'| ->|Hc];
      cbn [mbind result_bind]; [| |done| |done]; eauto.
Qed.

(** ** Cleaning the input *)

Lemma symbols_not_space c : c ∈ symbols → isspace c = false.
Proof.
  intros [->|[k [->| ->]]]%elem_of_symbols; [|destruct k..]; reflexivity.
Qed.

Lemma filter_lstrip s :
  filter (λ c, c ∈ symbols) (lstrip s) = filter (λ c, c ∈ symbols) s.
Proof.
  induction s as [|c s IH]; [done|]. cbn [lstrip].
  destruct (isspace c) eqn:Hc; [|done].
  rewrite filter_cons_False; [done|].
  intros H%symbols_not_space. congruence.
Qed.

Lemma filter_strip s :
  filter (λ c, c ∈ symbols) (strip s) = filter (λ c, c ∈ symbols) s.
Proof.
  unfold strip, rstrip.
  rewrite filter_reverse, filter_lstrip, filter_reverse, reverse_involutive.
  apply filter_lstrip.
Qed.

Lemma cleaned_filter s : cleaned s = filter (λ c, c ∈ symbols) s.
Proof. apply filter_strip. Qed.

Lemma cleaned_symbols s : Forall (λ c, c ∈ symbols) (cleaned s).
Proof.
  apply Forall_forall. intros c. unfold cleaned.
  rewrite list_elem_of_filter. tauto.
Qed.

Lemma cleaned_idemp s : cleaned (filter (λ c, c ∈ symbols) s) = cleaned s.
Proof.
  rewrite !cleaned_filter. apply list_filter_filter_l. tauto.
Qed.

Lemma foldl_tally_filter k s : ∀ d,
  foldl (tally k) d (filter (λ c, c ∈ symbols) s) = foldl (tally k) d s.
Proof.
  induction s as [|c s IH]; intros d; [done|]. rewrite filter_cons.
  case_decide as Hc; cbn [foldl]; [done|]. by rewrite tally_foreign.
Qed.

Lemma unmatched_cleaned k s : unmatched k (cleaned s) = unmatched k s.
Proof. unfold unmatched. rewrite cleaned_filter. apply foldl_tally_filter. Qed.

Lemma filter_eq_app_cons {A} (P : A → Prop) `{!∀ x, Decision (P x)} s : ∀ p c r,
  filter P s = p ++ c :: r →
  ∃ p' r', s = p' ++ c :: r' ∧ filter P p' = p ∧ filter P r' = r.
Proof.
  induction s as [|a s IH]; intros p c r.
  - by destruct p.
  - rewrite filter_cons. case_decide as Ha.
    + destruct p as [|b p].
      * intros [= -> Hr]. by exists [], s.
      * intros [= -> (p' & r' & -> & <- & <-)%IH].
        exists (b :: p'), r'. by rewrite filter_cons_True.
    + intros (p' & r' & -> & <- & <-)%IH.
      exists (a :: p'), r'. by rewrite filter_cons_False.
Qed.

Lemma closer_symbol k : closer k ∈ symbols.
Proof. apply elem_of_symbols. eauto. Qed.

Lemma closing_without_opening_cleaned s :
  closing_without_opening (cleaned s) ↔ closing_without_opening s.
Proof.
  rewrite cleaned_filter. split.
  - intros (k & p & r & (p' & r' & -> & <- & <-)%filter_eq_app_cons & Hp).
    exists k, p', r'. split; [done|].
    unfold unmatched in *. by rewrite foldl_tally_filter in Hp.
  - intros (k & p & r & -> & Hp).
    exists k, (filter (λ c, c ∈ symbols) p), (filter (λ c, c ∈ symbols) r).
    rewrite filter_app, filter_cons_True by apply closer_symbol.
    split; [done|]. unfold unmatched in *. by rewrite foldl_tally_filter.
Qed.

Lemma opening_left_unmatched_cleaned s :
  opening_left_unmatched (cleaned s) ↔ opening_left_unmatched s.
Proof.
  unfold opening_left_unmatched. by setoid_rewrite unmatched_cleaned.
Qed.

(** ** Nesting and unmatched symbols *)

Lemma tally_other k d c : c ≠ opener k → c ≠ closer k → tally k d c = d.
Proof. intros. unfold tally. by rewrite !decide_False. Qed.

Lemma nested_spec k s : ∀ d,
  nested k d s = true ↔
    (∀ p r, s = p ++ closer k :: r → foldl (tally k) d p ≠ 0%nat)
    ∧ foldl (tally k) d s = 0%nat.
Proof.
  induction s as [|c s IH]; intros d; cbn [nested foldl].
  - rewrite bool_decide_eq_true. split; [|tauto].
    intros ->. split; [|done]. intros p r Hs. by destruct p.
  - destruct (decide (c = opener k)) as [->|Ho];
      [|destruct (decide (c = closer k)) as [->|Hc]].
    + rewrite IH, tally_opener. split; intros [Hcl Hend]; (split; [|done]).
      * intros [|c p] r; [intros [= ?%opener_closer]; done|].
        intros [= <- ->]. cbn [foldl]. rewrite tally_opener. by eapply Hcl.
      * intros p r ->. specialize (Hcl (opener k :: p) r eq_refl).
        cbn [foldl] in Hcl. by rewrite tally_opener in Hcl.
    + rewrite tally_closer. destruct d as [|d].
      * split; [done|]. intros [Hcl _]. by destruct (Hcl [] s).
      * rewrite IH. cbn [pred]. split; intros [Hcl Hend]; (split; [|done]).
        -- intros [|c p] r; [done|].
           intros [= <- ->]. cbn [foldl]. rewrite tally_closer. by eapply Hcl.
        -- intros p r ->. specialize (Hcl (closer k :: p) r eq_refl).
           cbn [foldl] in Hcl. by rewrite tally_closer in Hcl.
    + rewrite IH, tally_other by done.
      split; intros [Hcl Hend]; (split; [|done]).
      * intros [|c' p] r; [intros [= ?]; done|].
        intros [= <- ->]. cbn [foldl]. rewrite tally_other by done.
        by eapply Hcl.
      * intros p r ->. specialize (Hcl (c :: p) r eq_refl).
        cbn [foldl] in Hcl. by rewrite tally_other in Hcl by done.
Qed.

(** A string is balanced when no closing symbol lacks an opening symbol
    and no opening symbol is left unmatched. *)
Lemma balanced_spec s :
  balanced s = true ↔
    ¬ closing_without_opening s ∧ ¬ opening_left_unmatched s.
Proof.
  unfold balanced. rewrite forallb_forall.
  setoid_rewrite nested_spec. setoid_rewrite <-list_elem_of_In.
  unfold closing_without_opening, opening_left_unmatched, unmatched. split.
  - intros Hs. split.
    + intros (k & p & r & -> & Hp).
      by destruct (Hs k (elem_of_brackets k)) as [Hcl _], (Hcl p r).
    + intros (k & Hk). by destruct (Hs k (elem_of_brackets k)).
  - intros [Hcl Hend] k _. split.
    + intros p r -> Hp. apply Hcl. eauto.
    + destruct (decide (foldl (tally k) 0%nat s = 0%nat)); [done|].
      destruct Hend. eauto.
Qed.

Lemma balanced_cleaned s : balanced (cleaned s) = balanced s.
Proof.
  apply eq_true_iff_eq. rewrite !balanced_spec.
  by rewrite closing_without_opening_cleaned, opening_left_unmatched_cleaned.
Qed.

(** ** The check after the loop *)

Lemma shaped_ext f g : (∀ k, f k = g k) → shaped f = shaped g.
Proof. intros Hfg. unfold shaped, brackets. simpl. by rewrite !Hfg. Qed.

Lemma check_closed_shaped f :
  (check_closed (shaped f) = Ok () ∧ ∀ k, f k = [])
  ∨ (∃ k, f k ≠ []
       ∧ check_closed (shaped f)
         = Raise (ValueError (UnmatchedOpening (opener k) (f k)))).
Proof.
  unfold shaped, brackets. cbn [fmap list_fmap check_closed].
  destruct (decide (f Round = [])) as [HR|HR];
    [|right; exists Round; by rewrite bool_decide_eq_true_2].
  destruct (decide (f Square = [])) as [HS|HS];
    [|right; exists Square; by rewrite bool_decide_eq_false_2, bool_decide_eq_true_2 by auto].
  destruct (decide (f Curly = [])) as [HC|HC];
    [|right; exists Curly;
      by rewrite !bool_decide_eq_false_2, bool_decide_eq_true_2 by auto].
  destruct (decide (f Angle = [])) as [HA|HA];
    [|right; exists Angle;
      by rewrite !bool_decide_eq_false_2, bool_decide_eq_true_2 by auto].
  left. rewrite !bool_decide_eq_false_2 by auto. split; [done|]. by intros [].
Qed.

(** ** The sort *)

Global Instance key_le_total : Total key_le.
Proof. intros [i j] [i' j']. unfold key_le. simpl. lia. Qed.

Global Instance key_le_trans : Transitive key_le.
Proof. intros [i j] [i' j'] [i'' j'']. unfold key_le. simpl. lia. Qed.

Global Instance key_le_antisymm : AntiSymm (=) key_le.
Proof.
  intros [i j] [i' j']. unfold key_le. simpl. intros ??. f_equal; lia.
Qed.

Lemma sort_pairs_Permutation pairs : sort_pairs pairs ≡ₚ pairs.
Proof. apply merge_sort_Permutation. Qed.

Lemma sort_pairs_sorted pairs : StronglySorted key_le (sort_pairs pairs).
Proof. apply StronglySorted_merge_sort; apply _. Qed.

(** The sorted list is the only sorted arrangement of the pairs, so every
    correct sort returns it. *)
Lemma sort_pairs_unique pairs l :
  l ≡ₚ pairs → StronglySorted key_le l → l = sort_pairs pairs.
Proof.
  intros Hl Hs. apply (StronglySorted_unique key_le); [done|..].
  - apply sort_pairs_sorted.
  - by rewrite sort_pairs_Permutation.
Qed.

Lemma parse_dotbracket_spec dotbracket start_resnum :
  parse_spec dotbracket start_resnum
    (parse_dotbracket dotbracket start_resnum).
Proof.
  unfold parse_dotbracket. cbn zeta.
  destruct (scan _ _ _) as [[pairs d]|e] eqn:Hscan;
    cbn [mbind result_bind]; [|by apply parse_unopened].
  pose proof Hscan as Hscan'. rewrite stacks0_shaped in Hscan'.
  apply scan_ok in Hscan' as (f & -> & _).
  destruct (check_closed_shaped f) as [[-> Hf]|(k & Hk & ->)];
    cbn [mbind result_bind].
  - apply parse_ok. rewrite Hscan, stacks0_shaped. f_equal. f_equal.
    by apply shaped_ext.
  - by eapply parse_unclosed.
Qed.

(** ** The indices of the pairs *)

Lemma elem_of_indices x pairs :
  x ∈ indices pairs ↔ ∃ i j, (i, j) ∈ pairs ∧ (x = i ∨ x = j).
Proof.
  unfold indices. rewrite list_elem_of_bind. split.
  - intros ([i j] & Hx & Hp). exists i, j. split; [done|].
    apply elem_of_cons in Hx as [->|Hx%list_elem_of_singleton]; auto.
  - intros (i & j & Hp & Hx). exists (i, j). split; [|done].
    rewrite elem_of_cons, list_elem_of_singleton. tauto.
Qed.

Lemma indices_snoc pairs i j : indices (pairs ++ [(i, j)]) = indices pairs ++ [i; j].
Proof. unfold indices. by rewrite bind_app. Qed.

Lemma index_invariant_init start : index_invariant start start [] (λ _, []).
Proof.
  unfold index_invariant, stack_items, indices. simpl.
  split_and!; [lia|set_solver..|constructor].
Qed.

Lemma index_invariant_below start idx pairs f x :
  index_invariant start idx pairs f →
  x ∈ indices pairs ++ stack_items f → x < idx.
Proof.
  intros (_ & Hst & Hp & _) [Hx|Hx]%elem_of_app.
  - apply elem_of_indices in Hx as (i & j & Hij%Hp & [-> | ->]); lia.
  - apply Hst in Hx. lia.
Qed.

Lemma index_invariant_open start idx pairs f k :
  index_invariant start idx pairs f →
  index_invariant start (idx + 1) pairs (<[k := f k ++ [idx]]> f).
Proof.
  intros HI. pose proof HI as (Hidx & Hst & Hp & Hnd).
  unfold index_invariant. split_and!.
  - lia.
  - intros x. rewrite stack_items_push. intros [->|?%Hst]%elem_of_cons; lia.
  - intros i j ?%Hp. lia.
  - rewrite stack_items_push, <-Permutation_middle. apply NoDup_cons.
    split; [|done]. intros ?%(index_invariant_below _ _ _ _ _ HI). lia.
Qed.

Lemma index_invariant_close start idx pairs f k st j :
  index_invariant start idx pairs f → f k = st ++ [j] →
  index_invariant start (idx + 1) (pairs ++ [(j, idx)]) (<[k := st]> f).
Proof.
  intros HI Hk. pose proof HI as (Hidx & Hst & Hp & Hnd).
  pose proof (stack_items_pop _ _ _ _ Hk) as Hperm.
  assert (start ≤ j < idx) as Hj.
  { apply Hst. rewrite Hperm. by left. }
  unfold index_invariant. split_and!.
  - lia.
  - intros x Hx. assert (start ≤ x < idx); [|lia].
    apply Hst. rewrite Hperm. by right.
  - intros i' j' [?%Hp|[= -> ->]%list_elem_of_singleton]%elem_of_app; lia.
  - rewrite indices_snoc.
    assert ((indices pairs ++ [j; idx]) ++ stack_items (<[k:=st]> f)
            ≡ₚ idx :: indices pairs ++ stack_items f) as ->.
    { rewrite Hperm. solve_Permutation. }
    apply NoDup_cons. split; [|done].
    intros ?%(index_invariant_below _ _ _ _ _ HI). lia.
Qed.

Lemma index_invariant_dot start idx pairs f :
  index_invariant start idx pairs f → index_invariant start (idx + 1) pairs f.
Proof.
  intros (Hidx & Hst & Hp & Hnd). unfold index_invariant. split_and!; [lia| | |done].
  - intros x ?%Hst. lia.
  - intros i j ?%Hp. lia.
Qed.

Lemma scan_index_invariant start s pairs d :
  scan start s ([], stacks0) = Ok (pairs, d) →
  ∃ f, d = shaped f
    ∧ index_invariant start (start + Z.of_nat (length s)) pairs f.
Proof.
  rewrite stacks0_shaped.
  apply (scan_invariant (index_invariant start));
    eauto using index_invariant_open, index_invariant_close,
      index_invariant_dot, index_invariant_init.
Qed.

Lemma shaped_inj f g k : shaped f = shaped g → f k = g k.
Proof. intros [= ????]. by destruct k. Qed.

(** What the pairs of a successful parse inherit from the loop. *)
Lemma parse_ok_pairs dotbracket start pairs :
  parse_dotbracket dotbracket start = Ok pairs →
  ∃ pairs0, pairs ≡ₚ pairs0 ∧ StronglySorted key_le pairs
    ∧ NoDup (indices pairs0)
    ∧ (∀ i j, (i, j) ∈ pairs0 →
         start ≤ i ∧ i < j
         ∧ j < start + Z.of_nat (length (cleaned dotbracket)))
    ∧ (2 * length pairs0 = bracket_count (cleaned dotbracket))%nat.
Proof.
  destruct (parse_dotbracket_spec dotbracket start) as [pairs0 Hscan| |];
    [|done..].
  intros [= <-]. exists pairs0.
  pose proof Hscan as (f & _ & _ & _ & Hp & Hnd%NoDup_app)%scan_index_invariant.
  rewrite !stacks0_shaped in Hscan.
  apply scan_ok in Hscan as (f' & Hf' & _ & _ & Hcnt).
  split_and!; [apply sort_pairs_Permutation|apply sort_pairs_sorted|tauto|done|].
  revert Hcnt. unfold stack_items.
  rewrite <-!(shaped_inj _ _ _ Hf'). simpl. lia.
Qed.

Global Instance indices_Permutation : Proper ((≡ₚ) ==> (≡ₚ)) indices.
Proof. intros l1 l2 Hl. unfold indices. by rewrite Hl. Qed.

(** ** When [parse_dotbracket] raises *)

(** The exception of a parse is one of the two for unmatched symbols, and
    it tells which of the two faults the string has; a parse that returns
    had a string with neither. *)
Lemma parse_dotbracket_faults dotbracket start :
  match parse_dotbracket dotbracket start with
  | Ok _ =>
      ¬ closing_without_opening dotbracket
      ∧ ¬ opening_left_unmatched dotbracket
  | Raise e =>
      (∃ k idx, e = ValueError (UnmatchedClosing (closer k) idx)
         ∧ closing_without_opening dotbracket)
      ∨ (∃ k st, e = ValueError (UnmatchedOpening (opener k) st)
           ∧ opening_left_unmatched dotbracket)
  end.
Proof.
  destruct (parse_dotbracket_spec dotbracket start)
    as [pairs Hscan|pairs f k Hscan Hk|e Hscan];
    rewrite ?stacks0_shaped in Hscan.
  - apply scan_ok in Hscan as (f' & Hf' & Hlen & Hcl & _).
    rewrite <-closing_without_opening_cleaned,
      <-opening_left_unmatched_cleaned. split.
    + intros (k & p & r & Hs & Hp). by eapply Hcl.
    + intros (k & Hk). apply Hk. unfold unmatched.
      specialize (Hlen k). simpl in Hlen. rewrite <-Hlen.
      by rewrite <-(shaped_inj _ _ _ Hf').
  - right. exists k, (f k). split; [done|].
    apply opening_left_unmatched_cleaned. exists k.
    apply scan_ok in Hscan as (f' & Hf' & Hlen & _).
    unfold unmatched. specialize (Hlen k). simpl in Hlen.
    rewrite <-Hlen, <-(shaped_inj _ _ _ Hf'). by destruct (f k).
  - left. apply scan_raise in Hscan as (k & p & r & Hs & Hp & ->);
      [|apply cleaned_symbols].
    exists k, (start + Z.of_nat (length p)). split; [done|].
    apply closing_without_opening_cleaned. by exists k, p, r.
Qed.

(** ** Saenger classes *)

Section saenger_facts.
Variable upper_other : char → list char.

Lemma base_of_letter c x : base_of c = Some x → c ∈ nucleotide_letters.
Proof.
  unfold base_of. repeat case_decide; [| | | |done]; intros _;
    match goal with H : _ ∈ _ |- _ =>
      repeat (apply elem_of_cons in H as [->|H]); try by apply elem_of_nil in H
    end; vm_compute; set_solver.
Qed.

Lemma infer_saenger_pair_letters c1 c2 :
  c1 ∈ nucleotide_letters → c2 ∈ nucleotide_letters →
  ∃ x y, base_of c1 = Some x ∧ base_of c2 = Some y
    ∧ infer_saenger_pair upper_other [c1] [c2] = saenger_table x y.
Proof.
  intros H1 H2.
  repeat (apply elem_of_cons in H1 as [->|H1]); [..|by apply elem_of_nil in H1].
  all: repeat (apply elem_of_cons in H2 as [->|H2]); [..|by apply elem_of_nil in H2].
  all: eexists _, _; split_and!; vm_compute; reflexivity.
Qed.

Lemma str_item_in_range seq i :
  0 ≤ i < Z.of_nat (length seq) →
  ∃ c, seq !! Z.to_nat i = Some c ∧ str_item seq i = Ok [c].
Proof.
  intros Hi. unfold str_item. cbn zeta.
  rewrite (decide_False (P := i < 0)) by lia.
  rewrite (decide_True (P := 0 ≤ i)) by lia.
  destruct (lookup_lt_is_Some_2 seq (Z.to_nat i)) as [c Hc]; [lia|].
  exists c. by rewrite Hc.
Qed.

(** The loop appends one class for each pair and never raises; a pair
    with an index out of the sequence, and a pair of letters without a
    class in the table, gets no class and a warning. *)
Lemma infer_loop_spec seq start pairs : ∀ classes stderr,
  ∃ classes' stderr',
    infer_loop upper_other pairs seq start classes stderr
    = Ok (classes ++ classes', stderr ++ stderr')
    ∧ length classes' = length pairs
    ∧ ∀ idx i j, pairs !! idx = Some (i, j) →
        (¬ (0 ≤ i - start < Z.of_nat (length seq)
            ∧ 0 ≤ j - start < Z.of_nat (length seq)) →
         classes' !! idx = Some None
         ∧ OutOfRange i j (Z.of_nat (length seq)) ∈ stderr')
        ∧ (∀ c1 c2 x y,
             0 ≤ i - start → 0 ≤ j - start →
             seq !! Z.to_nat (i - start) = Some c1 →
             seq !! Z.to_nat (j - start) = Some c2 →
             base_of c1 = Some x → base_of c2 = Some y →
             saenger_table x y = None →
             classes' !! idx = Some None
             ∧ CannotInfer [c1] [c2] ∈ stderr').
Proof.
  induction pairs as [|[i j] pairs IH]; intros classes stderr.
  - exists [], []. by rewrite !app_nil_r.
  - cbn [infer_loop]. cbn zeta. case_bool_decide as Hrange.
    + destruct (IH (classes ++ [None])
                  (stderr ++ [OutOfRange i j (Z.of_nat (length seq))]))
        as (classes' & stderr' & -> & Hlen & Hpairs).
      exists (None :: classes'),
        (OutOfRange i j (Z.of_nat (length seq)) :: stderr').
      rewrite <-!app_assoc. split_and!; [done|simpl; lia|].
      intros [|idx] i' j'.
      * intros [= -> ->]. split; [intros _; split; [done|by left]|].
        intros c1 c2 x y ?? H1%lookup_lt_Some H2%lookup_lt_Some. lia.
      * intros [Hout Hin]%Hpairs. split.
        -- intros [??]%Hout. split; [done|by right].
        -- intros c1 c2 x y ???????.
           destruct (Hin c1 c2 x y) as [??]; [done..|]. split; [done|by right].
    + destruct Hrange as [Hi Hj].
      destruct (str_item_in_range seq _ Hi) as (c1 & Hc1 & ->).
      destruct (str_item_in_range seq _ Hj) as (c2 & Hc2 & ->).
      cbn [mbind result_bind].
      destruct (infer_saenger_pair upper_other [c1] [c2]) as [z|] eqn:Hz.
      * destruct (IH (classes ++ [Some z]) stderr)
          as (classes' & stderr' & -> & Hlen & Hpairs).
        exists (Some z :: classes'), stderr'.
        rewrite <-!app_assoc. split_and!; [done|simpl; lia|].
        intros [|idx] i' j'.
        -- intros [= -> ->]. split; [intros []; by split|].
           intros c1' c2' x y _ _ Hc1' Hc2' Hx Hy Hxy.
           rewrite Hc1 in Hc1'. rewrite Hc2 in Hc2'.
           injection Hc1' as <-. injection Hc2' as <-.
           destruct (infer_saenger_pair_letters c1 c2)
             as (x' & y' & Hx' & Hy' & Hz');
             [by eapply base_of_letter..|]. congruence.
        -- intros [Hout Hin]%Hpairs. by split.
      * destruct (IH (classes ++ [None]) (stderr ++ [CannotInfer [c1] [c2]]))
          as (classes' & stderr' & -> & Hlen & Hpairs).
        exists (None :: classes'), (CannotInfer [c1] [c2] :: stderr').
        rewrite <-!app_assoc. split_and!; [done|simpl; lia|].
        intros [|idx] i' j'.
        -- intros [= -> ->]. split; [intros []; by split|].
           intros c1' c2' x y _ _ Hc1' Hc2' _ _ _.
           rewrite Hc1 in Hc1'. rewrite Hc2 in Hc2'.
           injection Hc1' as <-. injection Hc2' as <-.
           split; [done|by left].
        -- intros [Hout Hin]%Hpairs. split.
           ++ intros [??]%Hout. split; [done|by right].
           ++ intros c1' c2' x y ???????.
              destruct (Hin c1' c2' x y) as [??]; [done..|].
              split; [done|by right].
Qed.
End saenger_facts.

(** ** The Phenix text *)

Lemma format_loop_override chain saenger_list v pairs : ∀ idx out,
  (idx ≤ length saenger_list)%nat →
  format_loop idx pairs chain saenger_list (Some v) out
  = if decide (idx + length pairs ≤ length saenger_list)%nat
    then Ok (out ++ (pairs ≫= base_pair_block chain (Some v)))
    else Raise IndexError.
Proof.
  induction pairs as [|[i j] pairs IH]; intros idx out Hidx.
  - simpl. rewrite decide_True by lia. by rewrite app_nil_r.
  - cbn [format_loop]. cbn zeta. unfold list_item.
    destruct (saenger_list !! idx) as [sclass|] eqn:Hsclass;
      cbn [mbind result_bind].
    + apply lookup_lt_Some in Hsclass. rewrite IH by lia.
      rewrite length_cons. destruct (decide (S idx + _ ≤ _)%nat).
      * rewrite decide_True by lia. rewrite bind_cons.
        unfold base_pair_block at 2. simpl. by rewrite <-!app_assoc.
      * by rewrite decide_False by lia.
    + apply lookup_ge_None in Hsclass. rewrite decide_False; [done|].
      rewrite length_cons. lia.
Qed.

(** ** Runs on small inputs *)

Example parse_pseudoknot :
  parse_dotbracket (str "([.<)].>") 1 = Ok [(1, 5); (2, 6); (4, 8)].
Proof. reflexivity. Qed.

Example parse_skips_foreign :
  parse_dotbracket (str " (a.b) ") 10 = Ok [(10, 12)].
Proof. reflexivity. Qed.

Example parse_unmatched_closing :
  parse_dotbracket (str "())") 1
  = Raise (ValueError (UnmatchedClosing (chr ")") 3)).
Proof. reflexivity. Qed.

Example parse_unmatched_opening_order :
  parse_dotbracket (str "<{") 1
  = Raise (ValueError (UnmatchedOpening (chr "{") [2])).
Proof. reflexivity. Qed.

Example infer_with_soft_issues :
  infer_saenger_for_pairs (λ c, [c]) [(1, 5); (2, 4); (3, 9)] (str "GAAGC") 1
  = Ok ([Some 19; None; None],
        [CannotInfer (str "A") (str "G"); OutOfRange 3 9 5]).
Proof. reflexivity. Qed.

Example format_with_override :
  format_phenix [(1, 5)] (str "A") [None] (Some (Str (str "28")))
  = Ok (join [10%N]
          [str "pdb_interpretation {";
           str "  secondary_structure {";
           str "    nucleic_acid {";
           str "      base_pair {";
           str "        base1 = chain 'A' and resid 1";
           str "        base2 = chain 'A' and resid 5";
           str "        saenger_class = 28";
           str "      }";
           str "    }";
           str "  }";
           str "}"]).
Proof. reflexivity. Qed.

(** * The claims *)

(** C1: for every balanced dot-bracket string, [parse_dotbracket] returns
    a list of pairs whose length is half the number of bracket (non-dot)
    characters of the filtered input. *)
Theorem balanced_pair_count dotbracket start :
  balanced dotbracket = true →
  ∃ pairs, parse_dotbracket dotbracket start = Ok pairs
    ∧ length pairs = (bracket_count (cleaned dotbracket) `div` 2)%nat.
Proof.
  intros [Hcl Hop]%balanced_spec.
  pose proof (parse_dotbracket_faults dotbracket start) as Hfaults.
  destruct (parse_dotbracket dotbracket start) as [pairs|e] eqn:Hparse.
  - exists pairs. split; [done|].
    apply parse_ok_pairs in Hparse as (pairs0 & Hperm & _ & _ & _ & <-).
    by rewrite (Permutation_length Hperm), Nat.mul_comm, Nat.div_mul.
  - by destruct Hfaults as [(? & ? & _ & ?)|(? & ? & _ & ?)].
Qed.

Lemma balanced_pair_count_witness :
  ∃ pairs, parse_dotbracket (str "([.<)].>") 1 = Ok pairs
    ∧ length pairs = (bracket_count (cleaned (str "([.<)].>")) `div` 2)%nat.
Proof. apply (balanced_pair_count (str "([.<)].>") 1). reflexivity. Defined.

(** C2: [parse_dotbracket] applied to the string ["((.))"] with
    [start_resnum = 1] returns exactly the pairs (1,5) and (2,4). *)
Theorem parse_nested_example :
  parse_dotbracket (str "((.))") 1 = Ok [(1, 5); (2, 4)].
Proof. reflexivity. Qed.

(** C3: [parse_dotbracket] raises a [ValueError] if and only if some closing
    symbol has no earlier unmatched opening symbol of its type or some
    opening symbol is unmatched at the end of the input; it raises no other
    exception; and the input ["(()"] raises a [ValueError]. *)
Theorem parse_error_iff :
  (∀ dotbracket start,
     (∃ m, parse_dotbracket dotbracket start = Raise (ValueError m))
     ↔ closing_without_opening dotbracket ∨ opening_left_unmatched dotbracket)
  ∧ (∀ dotbracket start e,
       parse_dotbracket dotbracket start = Raise e → ∃ m, e = ValueError m)
  ∧ (∀ start,
       parse_dotbracket (str "(()") start
       = Raise (ValueError (UnmatchedOpening (chr "(") [start]))).
Proof.
  split_and!.
  - intros dotbracket start.
    pose proof (parse_dotbracket_faults dotbracket start) as Hfaults.
    destruct (parse_dotbracket dotbracket start) as [pairs|e]; split.
    + by intros [m ?].
    + tauto.
    + intros _. destruct Hfaults as [(? & ? & _ & ?)|(? & ? & _ & ?)]; auto.
    + intros _. destruct Hfaults as [(? & ? & -> & _)|(? & ? & -> & _)]; eauto.
  - intros dotbracket start e He.
    pose proof (parse_dotbracket_faults dotbracket start) as Hfaults.
    rewrite He in Hfaults.
    destruct Hfaults as [(? & ? & -> & _)|(? & ? & -> & _)]; eauto.
  - intros start. reflexivity.
Qed.

(** C4: for every two nucleotide letters, in either case and with T read
    as U, [infer_saenger_pair] returns 19 for G with C, 20 for A with U and
    28 for G with U, whichever of the two comes first, and [None] for every
    other combination. *)
Theorem saenger_pair_classes upper_other c1 c2 :
  c1 ∈ nucleotide_letters → c2 ∈ nucleotide_letters →
  ∃ x y, base_of c1 = Some x ∧ base_of c2 = Some y
    ∧ infer_saenger_pair upper_other [c1] [c2] = saenger_table x y
    ∧ infer_saenger_pair upper_other [c2] [c1] = saenger_table x y.
Proof.
  intros H1 H2.
  destruct (infer_saenger_pair_letters upper_other c1 c2 H1 H2)
    as (x & y & Hx & Hy & Hxy).
  destruct (infer_saenger_pair_letters upper_other c2 c1 H2 H1)
    as (y' & x' & Hy' & Hx' & Hyx).
  exists x, y. split_and!; [done..|].
  rewrite Hyx. replace x' with x by congruence.
  replace y' with y by congruence. by destruct x, y.
Qed.

Lemma saenger_pair_classes_witness :
  ∃ x y, base_of (chr "g") = Some x ∧ base_of (chr "T") = Some y
    ∧ infer_saenger_pair (λ c, [c]) [chr "g"] [chr "T"] = saenger_table x y
    ∧ infer_saenger_pair (λ c, [c]) [chr "T"] [chr "g"] = saenger_table x y.
Proof.
  apply (saenger_pair_classes (λ c, [c]) (chr "g") (chr "T"));
    vm_compute; repeat constructor.
Defined.

(** C5: [infer_saenger_for_pairs] never raises and returns one class for
    each pair; for a pair with a residue index out of the sequence, and for
    a pair within the sequence whose nucleotides have no class in the table
    (A with G, say), that class is [None] and a warning is printed. *)
Theorem soft_issues_warn upper_other pairs seq start :
  ∃ classes stderr,
    infer_saenger_for_pairs upper_other pairs seq start = Ok (classes, stderr)
    ∧ length classes = length pairs
    ∧ ∀ idx i j, pairs !! idx = Some (i, j) →
        (¬ (0 ≤ i - start < Z.of_nat (length seq)
            ∧ 0 ≤ j - start < Z.of_nat (length seq)) →
         classes !! idx = Some None
         ∧ OutOfRange i j (Z.of_nat (length seq)) ∈ stderr)
        ∧ (∀ c1 c2 x y,
             0 ≤ i - start → 0 ≤ j - start →
             seq !! Z.to_nat (i - start) = Some c1 →
             seq !! Z.to_nat (j - start) = Some c2 →
             base_of c1 = Some x → base_of c2 = Some y →
             saenger_table x y = None →
             classes !! idx = Some None
             ∧ CannotInfer [c1] [c2] ∈ stderr).
Proof. apply (infer_loop_spec upper_other seq start pairs [] []). Qed.

(** C6: with an override, every [base_pair] block of the text that
    [format_phenix] returns carries a [saenger_class] line with the
    override, whatever the class list holds; the text is returned when the
    list has a class for every pair. *)
Theorem override_replaces_classes pairs chain saenger_list v :
  format_phenix pairs chain saenger_list (Some v)
  = if decide (length pairs ≤ length saenger_list)%nat
    then Ok (join [10%N]
               (phenix_header
                ++ (pairs ≫= base_pair_block chain (Some v))
                ++ phenix_footer))
    else Raise IndexError.
Proof.
  unfold format_phenix. cbn zeta. rewrite format_loop_override by lia.
  simpl. case_decide; [|done]. cbn [mbind result_bind].
  by rewrite <-!app_assoc.
Qed.

(** C7: the pairs that [parse_dotbracket] returns are in strictly
    increasing order of their first index. *)
Theorem pairs_sorted_by_first dotbracket start pairs :
  parse_dotbracket dotbracket start = Ok pairs →
  StronglySorted (λ p q : Z * Z, p.1 < q.1) pairs.
Proof.
  intros (pairs0 & Hperm & Hsorted & Hnd & _)%parse_ok_pairs.
  rewrite <-Hperm in Hnd. clear Hperm.
  induction Hsorted as [|[i j] pairs Hsorted IH Hall]; [constructor|].
  unfold indices in Hnd. rewrite bind_cons in Hnd. fold (indices pairs) in Hnd.
  apply NoDup_app in Hnd as (_ & Hij & Hnd).
  constructor; [by apply IH|].
  apply Forall_forall. intros [i' j'] Hin.
  rewrite Forall_forall in Hall. specialize (Hall _ Hin).
  destruct Hall as [?|[Hi _]]; [done|]. simpl in *. subst i'.
  destruct (Hij i); [by left|].
  apply elem_of_indices. eauto.
Qed.

Lemma pairs_sorted_by_first_witness :
  StronglySorted (λ p q : Z * Z, p.1 < q.1) [(1, 5); (2, 4)].
Proof. apply (pairs_sorted_by_first (str "((.))") 1). reflexivity. Defined.

(** C8: every pair (i, j) that [parse_dotbracket] returns has [i < j], and
    both indices lie in [start_resnum .. start_resnum + L - 1], where [L]
    is the length of the filtered input. *)
Theorem pairs_in_range dotbracket start pairs :
  parse_dotbracket dotbracket start = Ok pairs →
  Forall (λ '(i, j),
            i < j
            ∧ start ≤ i ≤ start + Z.of_nat (count_dot_length dotbracket) - 1
            ∧ start ≤ j ≤ start + Z.of_nat (count_dot_length dotbracket) - 1)
    pairs.
Proof.
  intros (pairs0 & Hperm & _ & _ & Hp & _)%parse_ok_pairs.
  apply Forall_forall. intros [i j] Hin. rewrite Hperm in Hin.
  apply Hp in Hin. unfold count_dot_length. lia.
Qed.

Lemma pairs_in_range_witness :
  Forall (λ '(i, j),
            i < j
            ∧ 1 ≤ i ≤ 1 + Z.of_nat (count_dot_length (str "((.))")) - 1
            ∧ 1 ≤ j ≤ 1 + Z.of_nat (count_dot_length (str "((.))")) - 1)
    [(1, 5); (2, 4)].
Proof. apply (pairs_in_range (str "((.))") 1). reflexivity. Defined.

(** C9: [parse_dotbracket] rejects no input for a foreign character:
    characters other than the nine symbols are removed before matching, so
    the parse of a string is the parse of its filtered string and the
    [Unexpected character] error is never raised. *)
Theorem foreign_characters_ignored dotbracket start :
  parse_dotbracket dotbracket start
  = parse_dotbracket (filter (λ c, c ∈ symbols) dotbracket) start
  ∧ ∀ c idx,
      parse_dotbracket dotbracket start
      ≠ Raise (ValueError (UnexpectedCharacter c idx)).
Proof.
  split.
  - unfold parse_dotbracket. by rewrite cleaned_idemp.
  - intros c idx He.
    pose proof (parse_dotbracket_faults dotbracket start) as Hfaults.
    rewrite He in Hfaults.
    by destruct Hfaults as [(? & ? & ? & _)|(? & ? & ? & _)].
Qed.

(** C10: in the pairs that [parse_dotbracket] returns, each residue index
    occurs at most once, across the pairs and within a pair. *)
Theorem indices_used_once dotbracket start pairs :
  parse_dotbracket dotbracket start = Ok pairs →
  NoDup (indices pairs).
Proof.
  intros (pairs0 & Hperm & _ & Hnd & _)%parse_ok_pairs.
  by rewrite Hperm.
Qed.

Lemma indices_used_once_witness : NoDup (indices [(1, 3); (2, 4)]).
Proof. apply (indices_used_once (str "([)]") 1). reflexivity. Defined.

(** * Further properties *)

(** ** One iteration, by symbol *)

Lemma step_opener idx k pairs f :
  step idx (opener k) (pairs, shaped f)
  = Ok (pairs, shaped (<[k := f k ++ [idx]]> f)).
Proof.
  destruct (step_shaped idx (opener k) pairs f)
    as [k' Hk|k' st j Hk _|k' Hk _|Hk|Hk].
  - by apply opener_inj in Hk as <-.
  - by apply opener_closer in Hk.
  - by apply opener_closer in Hk.
  - by apply opener_not_dot in Hk.
  - destruct Hk. apply elem_of_symbols. eauto.
Qed.

Lemma step_closer idx k pairs f st j :
  f k = st ++ [j] →
  step idx (closer k) (pairs, shaped f)
  = Ok (pairs ++ [(j, idx)], shaped (<[k := st]> f)).
Proof.
  intros Hf.
  destruct (step_shaped idx (closer k) pairs f)
    as [k' Hk|k' st' j' Hk Hf'|k' Hk Hf'|Hk|Hk].
  - symmetry in Hk. by apply opener_closer in Hk.
  - apply closer_inj in Hk as <-. rewrite Hf in Hf'.
    by apply app_inj_tail in Hf' as [<- <-].
  - apply closer_inj in Hk as <-. rewrite Hf in Hf'. by destruct st.
  - by apply closer_not_dot in Hk.
  - destruct Hk. apply closer_symbol.
Qed.

Lemma step_closer_empty idx k pairs f :
  f k = [] →
  step idx (closer k) (pairs, shaped f)
  = Raise (ValueError (UnmatchedClosing (closer k) idx)).
Proof.
  intros Hf.
  destruct (step_shaped idx (closer k) pairs f)
    as [k' Hk|k' st' j' Hk Hf'|k' Hk Hf'|Hk|Hk].
  - symmetry in Hk. by apply opener_closer in Hk.
  - apply closer_inj in Hk as <-. rewrite Hf in Hf'. by destruct st'.
  - done.
  - by apply closer_not_dot in Hk.
  - destruct Hk. apply closer_symbol.
Qed.

Lemma step_dot_eq idx pairs f :
  step idx (chr ".") (pairs, shaped f) = Ok (pairs, shaped f).
Proof.
  destruct (step_shaped idx (chr ".") pairs f)
    as [k' Hk|k' st' j' Hk Hf'|k' Hk Hf'|Hk|Hk].
  - symmetry in Hk. by apply opener_not_dot in Hk.
  - symmetry in Hk. by apply closer_not_dot in Hk.
  - symmetry in Hk. by apply closer_not_dot in Hk.
  - done.
  - destruct Hk. apply elem_of_symbols. by left.
Qed.

(** ** The loop, index by index *)

(** An invariant that each iteration keeps, given the symbol at its index,
    holds when the loop over the whole string ends. *)
Lemma scan_positions (I : Z → list (Z * Z) → (bracket → list Z) → Prop)
    start w :
  (∀ idx pairs f k,
     I idx pairs f → symbol_at start w idx (opener k) →
     I (idx + 1) pairs (<[k := f k ++ [idx]]> f)) →
  (∀ idx pairs f k st j,
     I idx pairs f → symbol_at start w idx (closer k) → f k = st ++ [j] →
     I (idx + 1) (pairs ++ [(j, idx)]) (<[k := st]> f)) →
  (∀ idx pairs f,
     I idx pairs f → symbol_at start w idx (chr ".") → I (idx + 1) pairs f) →
  ∀ rest done pairs f pairs' d',
    w = done ++ rest →
    I (start + Z.of_nat (length done)) pairs f →
    scan (start + Z.of_nat (length done)) rest (pairs, shaped f)
      = Ok (pairs', d') →
    ∃ f', d' = shaped f' ∧ I (start + Z.of_nat (length w)) pairs' f'.
Proof.
  intros Hopen Hclose Hdot.
  induction rest as [|c rest IH]; intros done pairs f pairs' d' -> HI;
    cbn [scan].
  - intros [= <- <-]. exists f. by rewrite app_nil_r.
  - assert (symbol_at start (done ++ c :: rest)
              (start + Z.of_nat (length done)) c) as Hc.
    { split; [lia|].
      replace (Z.to_nat _) with (length done) by lia.
      by rewrite list_lookup_middle. }
    assert (start + Z.of_nat (length done) + 1
            = start + Z.of_nat (length (done ++ [c]))) as Hidx.
    { rewrite length_app. simpl. lia. }
    specialize (IH (done ++ [c])). rewrite <-app_assoc in IH. simpl in IH.
    destruct (step_shaped (start + Z.of_nat (length done)) c pairs f)
      as [k' ->|k' st j -> Hk'|k' -> Hk'| ->|Hc'];
      cbn [mbind result_bind]; [| |done| |done];
      rewrite Hidx; intros Hscan; eapply IH; try done; rewrite <-Hidx; eauto.
Qed.

(** ** Brackets and their pairs *)

Lemma symbol_at_unique start w x c c' :
  symbol_at start w x c → symbol_at start w x c' → c = c'.
Proof. intros [_ H] [_ H']. congruence. Qed.

Lemma elem_of_stack_items (f : bracket → list Z) x :
  x ∈ stack_items f ↔ ∃ k, x ∈ f k.
Proof.
  unfold stack_items. rewrite !elem_of_app. split.
  - intros [?|[?|[?|?]]]; eauto.
  - intros [[] ?]; auto.
Qed.

Lemma elem_of_push (f : bracket → list Z) k k' x y :
  y ∈ <[k := f k ++ [x]]> f k' ↔ y ∈ f k' ∨ (k' = k ∧ y = x).
Proof.
  destruct (decide (k = k')) as [->|Hk].
  - rewrite fn_lookup_insert, elem_of_app, list_elem_of_singleton.
    split; [intros [?|?]; auto|intros [?|[_ ?]]; auto].
  - rewrite fn_lookup_insert_ne by done.
    split; [auto|intros [?|[? _]]; congruence].
Qed.

Lemma elem_of_pop (f : bracket → list Z) k k' st j y :
  f k = st ++ [j] →
  y ∈ <[k := st]> f k' → y ∈ f k' ∧ (k' = k → y ∈ st).
Proof.
  intros Hf. destruct (decide (k = k')) as [->|Hk].
  - rewrite fn_lookup_insert, Hf, elem_of_app. auto.
  - rewrite fn_lookup_insert_ne by done. intros ?. split; [done|congruence].
Qed.

Lemma matching_invariant_init start w :
  matching_invariant start w start [] (λ _, []).
Proof.
  split_and!.
  - apply index_invariant_init.
  - intros k x Hx. by apply elem_of_nil in Hx.
  - intros i j Hij. by apply elem_of_nil in Hij.
  - intros x c Hx [Hx' _]. lia.
  - constructor.
  - intros k x i j Hx. by apply elem_of_nil in Hx.
  - intros k p q Hp. by apply elem_of_nil in Hp.
Qed.

Lemma matching_invariant_open start w idx pairs f k :
  matching_invariant start w idx pairs f →
  symbol_at start w idx (opener k) →
  matching_invariant start w (idx + 1) pairs (<[k := f k ++ [idx]]> f).
Proof.
  intros (HI & Hst & Hp & Hcov & Hsort & Hsep & Hcross) Hidx.
  pose proof HI as (_ & Hbst & Hbp & _).
  split_and!.
  - by apply index_invariant_open.
  - intros k' x [?|[-> ->]]%elem_of_push; auto.
  - done.
  - intros x c Hx Hc Hdot. rewrite stack_items_push, <-Permutation_middle.
    destruct (decide (x = idx)) as [->|]; [by left|].
    right. apply (Hcov x c); [lia|done..].
  - intros k'. destruct (decide (k = k')) as [->|Hk].
    + rewrite fn_lookup_insert. apply StronglySorted_app_2; [|done|].
      * intros x1 x2 Hx1 ->%list_elem_of_singleton.
        apply Hbst, elem_of_stack_items. eauto.
      * repeat constructor.
    + by rewrite fn_lookup_insert_ne.
  - intros k' x i j [?|[-> ->]]%elem_of_push Hij Hi; [by eapply Hsep|].
    right. apply Hbp in Hij. lia.
  - done.
Qed.

Lemma matching_invariant_close start w idx pairs f k st j :
  matching_invariant start w idx pairs f →
  symbol_at start w idx (closer k) → f k = st ++ [j] →
  matching_invariant start w (idx + 1) (pairs ++ [(j, idx)]) (<[k := st]> f).
Proof.
  intros (HI & Hst & Hp & Hcov & Hsort & Hsep & Hcross) Hidx Hf.
  pose proof HI as (_ & Hbst & Hbp & _).
  assert (j ∈ f k) as Hj by (rewrite Hf, elem_of_app; right; by left).
  split_and!.
  - by apply index_invariant_close.
  - intros k' x [??]%(elem_of_pop _ _ _ _ _ _ Hf). auto.
  - intros i' j' [?|[= -> ->]%list_elem_of_singleton]%elem_of_app; eauto.
  - intros x c Hx Hc Hdot. rewrite indices_snoc, <-app_assoc.
    destruct (decide (x = idx)) as [->|].
    { rewrite !elem_of_app, !elem_of_cons. auto. }
    specialize (Hcov x c). rewrite (stack_items_pop _ _ _ _ Hf) in Hcov.
    rewrite !elem_of_app, !elem_of_cons in *.
    destruct Hcov as [?|[?|?]]; [lia|done|done|auto..].
  - intros k'. destruct (decide (k = k')) as [->|Hk].
    + rewrite fn_lookup_insert. specialize (Hsort k'). rewrite Hf in Hsort.
      by apply StronglySorted_app_1_l in Hsort.
    + by rewrite fn_lookup_insert_ne.
  - intros k' x i' j' [Hx Hx']%(elem_of_pop _ _ _ _ _ _ Hf).
    intros [?|[= -> ->]%list_elem_of_singleton]%elem_of_app Hi;
      [by eapply Hsep|].
    left. assert (k' = k) as ->.
    { eapply opener_inj, symbol_at_unique; eauto. }
    specialize (Hsort k). rewrite Hf in Hsort.
    eapply StronglySorted_app_1_elem_of; [done|by apply Hx'|by left].
  - intros k' p q.
    intros [Hpin| ->%list_elem_of_singleton]%elem_of_app
           [Hqin| ->%list_elem_of_singleton]%elem_of_app Hpk Hqk;
      unfold crossing; simpl in *.
    + by eapply Hcross.
    + assert (k' = k) as ->.
      { eapply opener_inj, symbol_at_unique; eauto. }
      destruct p as [i1 j1]. simpl in *.
      destruct (Hsep k j i1 j1); [done..| |]; lia.
    + destruct q as [i2 j2]. apply Hbp in Hqin. simpl. lia.
    + lia.
Qed.

Lemma matching_invariant_dot start w idx pairs f :
  matching_invariant start w idx pairs f →
  symbol_at start w idx (chr ".") →
  matching_invariant start w (idx + 1) pairs f.
Proof.
  intros (HI & Hst & Hp & Hcov & Hsort & Hsep & Hcross) Hidx.
  split_and!; [by apply index_invariant_dot|done..| |done|done|done].
  intros x c Hx Hc Hdot. apply (Hcov x c); [|done..].
  destruct (decide (x = idx)) as [->|]; [|lia].
  destruct Hdot. by eapply symbol_at_unique.
Qed.

Lemma scan_matching_invariant start w pairs d :
  scan start w ([], stacks0) = Ok (pairs, d) →
  ∃ f, d = shaped f
    ∧ matching_invariant start w (start + Z.of_nat (length w)) pairs f.
Proof.
  rewrite stacks0_shaped. intros Hscan.
  apply (scan_positions (matching_invariant start w) start w
           (matching_invariant_open start w)
           (matching_invariant_close start w)
           (matching_invariant_dot start w) w [] [] (λ _, [])); [done| |].
  - simpl. rewrite Z.add_0_r. apply matching_invariant_init.
  - simpl. by rewrite Z.add_0_r.
Qed.

(** What the pairs of a successful parse inherit from the loop over the
    cleaned string. *)
Lemma parse_ok_matching dotbracket start pairs :
  parse_dotbracket dotbracket start = Ok pairs →
  ∃ pairs0, pairs = sort_pairs pairs0
    ∧ scan start (cleaned dotbracket) ([], stacks0) = Ok (pairs0, stacks0)
    ∧ matching_invariant start (cleaned dotbracket)
        (start + Z.of_nat (length (cleaned dotbracket))) pairs0 (λ _, []).
Proof.
  destruct (parse_dotbracket_spec dotbracket start) as [pairs0 Hscan| |];
    [|done..].
  intros [= <-]. exists pairs0. split_and!; [done..|].
  destruct (scan_matching_invariant _ _ _ _ Hscan) as (f & Hf & HI).
  rewrite stacks0_shaped in Hf.
  destruct HI as (HI & Hst & Hp & Hcov & Hsort & Hsep & Hcross).
  split_and!; try done.
  - destruct HI as (? & Hbst & ? & Hnd). split_and!; [done| |done|].
    + intros x Hx. by apply elem_of_nil in Hx.
    + unfold stack_items in *.
      by rewrite <-!(shaped_inj _ _ _ Hf) in Hnd.
  - intros k x Hx. by apply elem_of_nil in Hx.
  - intros x c Hx Hc Hdot. specialize (Hcov x c Hx Hc Hdot).
    unfold stack_items in *. by rewrite <-!(shaped_inj _ _ _ Hf) in Hcov.
  - constructor.
  - intros k x i j Hx. by apply elem_of_nil in Hx.
Qed.

(** X1: Every pair joins an opening symbol with a closing symbol of the same
    bracket type, at the two residue indices of the pair. *)
Theorem pairs_join_matching_symbols dotbracket start pairs :
  parse_dotbracket dotbracket start = Ok pairs →
  Forall (λ '(i, j), ∃ k,
            symbol_at start (cleaned dotbracket) i (opener k)
            ∧ symbol_at start (cleaned dotbracket) j (closer k)) pairs.
Proof.
  intros (pairs0 & -> & _ & _ & _ & Hp & _)%parse_ok_matching.
  apply Forall_forall. intros [i j] Hij.
  rewrite sort_pairs_Permutation in Hij. by apply Hp.
Qed.

Lemma pairs_join_matching_symbols_witness :
  Forall (λ '(i, j), ∃ k,
            symbol_at 1 (cleaned (str "([.)]")) i (opener k)
            ∧ symbol_at 1 (cleaned (str "([.)]")) j (closer k))
    [(1, 4); (2, 5)].
Proof. apply (pairs_join_matching_symbols (str "([.)]") 1). reflexivity. Defined.

(** X2: An index of the cleaned string is used by a pair exactly when its
    symbol is a bracket: no bracket is left out and no dot is paired. *)
Theorem paired_indices_are_the_brackets dotbracket start pairs x c :
  parse_dotbracket dotbracket start = Ok pairs →
  symbol_at start (cleaned dotbracket) x c →
  x ∈ indices pairs ↔ c ≠ chr ".".
Proof.
  intros (pairs0 & -> & _ & HI & _ & Hp & Hcov & _)%parse_ok_matching Hc.
  rewrite sort_pairs_Permutation. split.
  - intros (i & j & (k & Hi & Hj)%Hp & [-> | ->])%elem_of_indices.
    + rewrite (symbol_at_unique _ _ _ _ _ Hc Hi). apply opener_not_dot.
    + rewrite (symbol_at_unique _ _ _ _ _ Hc Hj). apply closer_not_dot.
  - intros Hdot. specialize (Hcov x c).
    unfold stack_items in Hcov. rewrite !app_nil_r in Hcov.
    apply Hcov; [|done..]. destruct Hc as [Hx Hc%lookup_lt_Some]. lia.
Qed.

Lemma paired_indices_are_the_brackets_witness :
  3 ∈ indices [(1, 4); (2, 5)] ↔ chr "." ≠ chr ".".
Proof.
  apply (paired_indices_are_the_brackets (str "([.)]") 1 [(1, 4); (2, 5)]).
  - reflexivity.
  - split; [lia|reflexivity].
Defined.

(** X3: Two pairs of the same bracket type never cross: they are nested or
    apart. Only pairs of different types can cross, as in a pseudoknot. *)
Theorem same_type_pairs_do_not_cross dotbracket start pairs k p q :
  parse_dotbracket dotbracket start = Ok pairs →
  p ∈ pairs → q ∈ pairs →
  symbol_at start (cleaned dotbracket) p.1 (opener k) →
  symbol_at start (cleaned dotbracket) q.1 (opener k) →
  ¬ crossing p q.
Proof.
  intros (pairs0 & -> & _ & _ & _ & _ & _ & _ & _ & Hcross)%parse_ok_matching.
  intros Hp Hq. rewrite sort_pairs_Permutation in Hp, Hq.
  by apply Hcross.
Qed.

Lemma same_type_pairs_do_not_cross_witness : ¬ crossing (1, 6) (2, 3).
Proof.
  apply (same_type_pairs_do_not_cross (str "(()())") 1
           [(1, 6); (2, 3); (4, 5)] Round).
  - reflexivity.
  - repeat constructor.
  - repeat constructor.
  - split; [simpl; lia|reflexivity].
  - split; [simpl; lia|reflexivity].
Defined.

(** ** Renumbering *)

Lemma shaped_shift_push d (f : bracket → list Z) k idx :
  shaped (<[k := (Z.add d <$> f k) ++ [idx + d]]> (λ k, Z.add d <$> f k))
  = shaped (λ k', Z.add d <$> <[k := f k ++ [idx]]> f k').
Proof.
  apply shaped_ext. intros k'. destruct (decide (k = k')) as [->|Hk].
  - by rewrite !fn_lookup_insert, fmap_app, (Z.add_comm idx d).
  - by rewrite !fn_lookup_insert_ne.
Qed.

Lemma shaped_shift_pop d (f : bracket → list Z) k st :
  shaped (<[k := Z.add d <$> st]> (λ k, Z.add d <$> f k))
  = shaped (λ k', Z.add d <$> <[k := st]> f k').
Proof.
  apply shaped_ext. intros k'. destruct (decide (k = k')) as [->|Hk].
  - by rewrite !fn_lookup_insert.
  - by rewrite !fn_lookup_insert_ne.
Qed.

Lemma scan_shift d s : ∀ idx pairs f pairs' d',
  scan idx s (pairs, shaped f) = Ok (pairs', d') →
  ∃ f', d' = shaped f'
    ∧ scan (idx + d) s (shift d <$> pairs, shaped (λ k, Z.add d <$> f k))
      = Ok (shift d <$> pairs', shaped (λ k, Z.add d <$> f' k)).
Proof.
  induction s as [|c s IH]; intros idx pairs f pairs' d'; cbn [scan].
  - intros [= <- <-]. by exists f.
  - replace (idx + d + 1) with (idx + 1 + d) by lia.
    destruct (step_shaped idx c pairs f) as [k ->|k st j -> Hk|k -> Hk| ->|Hc];
      cbn [mbind result_bind]; [| |done| |done].
    + intros (f' & -> & Hscan)%IH. exists f'. split; [done|].
      rewrite step_opener. cbn [mbind result_bind].
      by rewrite shaped_shift_push.
    + intros (f' & -> & Hscan)%IH. exists f'. split; [done|].
      rewrite (step_closer _ _ _ _ (Z.add d <$> st) (j + d))
        by (by rewrite Hk, fmap_app, (Z.add_comm j d)).
      cbn [mbind result_bind]. rewrite shaped_shift_pop.
      by rewrite fmap_app in Hscan.
    + intros (f' & -> & Hscan)%IH. exists f'. split; [done|].
      by rewrite step_dot_eq.
Qed.

Lemma sort_pairs_shift d pairs :
  sort_pairs (shift d <$> pairs) = shift d <$> sort_pairs pairs.
Proof.
  symmetry. apply sort_pairs_unique.
  - by rewrite sort_pairs_Permutation.
  - eapply StronglySorted_fmap; [|apply sort_pairs_sorted].
    intros [i j] [i' j']. unfold key_le, shift. simpl. lia.
Qed.

(** X4: [start_resnum] only renumbers: parsing from [start + d] gives the
    pairs of parsing from [start], each index moved by [d]. *)
Theorem start_resnum_shifts_pairs dotbracket start d pairs :
  parse_dotbracket dotbracket start = Ok pairs →
  parse_dotbracket dotbracket (start + d) = Ok (shift d <$> pairs).
Proof.
  intros (pairs0 & -> & Hscan & _)%parse_ok_matching.
  rewrite stacks0_shaped in Hscan.
  apply (scan_shift d) in Hscan as (f' & Hf' & Hscan).
  unfold parse_dotbracket. cbn zeta.
  rewrite stacks0_shaped.
  replace (shaped (λ _, [])) with (shaped (λ k, Z.add d <$> (λ _, []) k))
    by done.
  change (@nil (Z * Z)) with (shift d <$> @nil (Z * Z)).
  rewrite Hscan. cbn [mbind result_bind].
  replace (shaped (λ k, Z.add d <$> f' k)) with stacks0.
  - cbn [mbind result_bind]. simpl. by rewrite sort_pairs_shift.
  - rewrite stacks0_shaped. apply shaped_ext. intros k.
    by rewrite <-(shaped_inj _ _ k Hf').
Qed.

Lemma start_resnum_shifts_pairs_witness :
  parse_dotbracket (str "((.))") (1 + 99) = Ok (shift 99 <$> [(1, 5); (2, 4)]).
Proof. apply (start_resnum_shifts_pairs (str "((.))") 1 99). reflexivity. Defined.

(** ** Strings put together *)

Lemma scan_app a : ∀ b idx σ,
  scan idx (a ++ b) σ
  = σ' ← scan idx a σ; scan (idx + Z.of_nat (length a)) b σ'.
Proof.
  induction a as [|c a IH]; intros b idx σ; simpl.
  - by rewrite Z.add_0_r.
  - destruct (step idx c σ) as [σ'|e]; cbn [mbind result_bind]; [|done].
    rewrite IH. by replace (idx + 1 + Z.of_nat (length a))
      with (idx + Z.pos (Pos.of_succ_nat (length a))) by lia.
Qed.

Lemma scan_frame pairs0 s : ∀ idx pairs f pairs' d',
  scan idx s (pairs, shaped f) = Ok (pairs', d') →
  scan idx s (pairs0 ++ pairs, shaped f) = Ok (pairs0 ++ pairs', d').
Proof.
  induction s as [|c s IH]; intros idx pairs f pairs' d'; cbn [scan].
  - by intros [= <- <-].
  - destruct (step_shaped idx c pairs f) as [k ->|k st j -> Hk|k -> Hk| ->|Hc];
      cbn [mbind result_bind]; [| |done| |done]; intros Hscan%IH.
    + by rewrite step_opener.
    + rewrite (step_closer _ _ _ _ _ _ Hk). cbn [mbind result_bind].
      by rewrite <-app_assoc.
    + by rewrite step_dot_eq.
Qed.

Lemma cleaned_app s1 s2 : cleaned (s1 ++ s2) = cleaned s1 ++ cleaned s2.
Proof. rewrite !cleaned_filter. apply filter_app. Qed.

(** X5: Two strings that parse on their own parse together: the pairs of the
    whole are those of the first string followed by those of the second,
    numbered from where the first string ends. *)
Theorem parse_concatenation s1 s2 start pairs1 pairs2 :
  parse_dotbracket s1 start = Ok pairs1 →
  parse_dotbracket s2 (start + Z.of_nat (count_dot_length s1)) = Ok pairs2 →
  parse_dotbracket (s1 ++ s2) start = Ok (pairs1 ++ pairs2).
Proof.
  unfold count_dot_length.
  intros (p1 & -> & Hscan1 & (_ & _ & Hb1 & _) & _)%parse_ok_matching.
  intros (p2 & -> & Hscan2 & (_ & _ & Hb2 & _) & _)%parse_ok_matching.
  unfold parse_dotbracket. cbn zeta.
  rewrite cleaned_app, scan_app, Hscan1. cbn [mbind result_bind].
  rewrite !stacks0_shaped in *.
  apply (scan_frame p1) in Hscan2. rewrite app_nil_r in Hscan2.
  rewrite Hscan2. cbn [mbind result_bind].
  rewrite <-stacks0_shaped. simpl. f_equal.
  symmetry. apply sort_pairs_unique.
  - by rewrite !sort_pairs_Permutation.
  - apply StronglySorted_app_2; [|apply sort_pairs_sorted..].
    intros [i j] [i' j'] Hij Hij'.
    rewrite sort_pairs_Permutation in Hij, Hij'.
    apply Hb1 in Hij. apply Hb2 in Hij'. left. simpl. lia.
Qed.

Lemma parse_concatenation_witness :
  parse_dotbracket (str "(.)" ++ str "[x]") 1 = Ok ([(1, 3)] ++ [(4, 5)]).
Proof.
  apply (parse_concatenation (str "(.)") (str "[x]") 1); reflexivity.
Defined.

(** ** Success and balance *)

Lemma parse_ok_iff_balanced dotbracket start :
  (∃ pairs, parse_dotbracket dotbracket start = Ok pairs)
  ↔ balanced dotbracket = true.
Proof.
  pose proof (parse_dotbracket_faults dotbracket start) as Hfaults.
  rewrite balanced_spec.
  destruct (parse_dotbracket dotbracket start) as [pairs|e]; split.
  - done.
  - eauto.
  - by intros [pairs ?].
  - intros [??]. by destruct Hfaults as [(? & ? & _ & ?)|(? & ? & _ & ?)].
Qed.

(** X6: [parse_dotbracket] returns pairs exactly for the balanced strings. *)
Theorem parse_succeeds_iff_balanced dotbracket start :
  (∃ pairs, parse_dotbracket dotbracket start = Ok pairs)
  ↔ balanced dotbracket = true.
Proof. apply parse_ok_iff_balanced. Qed.

(** ** What the two errors report *)

Lemma scan_raise_first s : ∀ idx pairs f e,
  Forall (λ c, c ∈ symbols) s →
  scan idx s (pairs, shaped f) = Raise e →
  ∃ k p r pairs' f',
    s = p ++ closer k :: r
    ∧ scan idx p (pairs, shaped f) = Ok (pairs', shaped f')
    ∧ f' k = []
    ∧ e = ValueError (UnmatchedClosing (closer k) (idx + Z.of_nat (length p))).
Proof.
  induction s as [|c s IH]; intros idx pairs f e Hs; cbn [scan]; [done|].
  apply Forall_cons in Hs as [Hc Hs].
  destruct (step_shaped idx c pairs f) as [k' ->|k' st j -> Hk'|k' -> Hk'| ->|Hc'];
    cbn [mbind result_bind]; [| | | |done].
  - intros (k & p & r & pairs' & f' & -> & Hp & Hf' & ->)%IH; [|done].
    exists k, (opener k' :: p), r, pairs', f'. split_and!; [done| |done|].
    + cbn [scan]. by rewrite step_opener.
    + do 2 f_equal. rewrite length_cons. lia.
  - intros (k & p & r & pairs' & f' & -> & Hp & Hf' & ->)%IH; [|done].
    exists k, (closer k' :: p), r, pairs', f'. split_and!; [done| |done|].
    + cbn [scan]. by rewrite (step_closer _ _ _ _ _ _ Hk').
    + do 2 f_equal. rewrite length_cons. lia.
  - intros [= <-]. exists k', [], s, pairs, f. split_and!; [done..|].
    do 2 f_equal. simpl. lia.
  - intros (k & p & r & pairs' & f' & -> & Hp & Hf' & ->)%IH; [|done].
    exists k, (chr "." :: p), r, pairs', f'. split_and!; [done| |done|].
    + cbn [scan]. by rewrite step_dot_eq.
    + do 2 f_equal. rewrite length_cons. lia.
Qed.

(** The loop over symbols ends unless a closing symbol lacks its opening
    symbol. *)
Lemma scan_total s idx pairs :
  Forall (λ c, c ∈ symbols) s →
  ¬ closing_without_opening s →
  ∃ pairs' f', scan idx s (pairs, stacks0) = Ok (pairs', shaped f').
Proof.
  intros Hs Hcl. rewrite stacks0_shaped.
  destruct (scan idx s (pairs, shaped (λ _, []))) as [[pairs' d']|e] eqn:Hscan.
  - apply scan_ok in Hscan as (f' & -> & _). eauto.
  - apply scan_raise in Hscan as (k & p & r & -> & Hp & _); [|done].
    destruct Hcl. by exists k, p, r.
Qed.

(** X7: [parse_dotbracket] raises the error of an unmatched closing symbol
    exactly for the first closing symbol of the cleaned string that has no
    unmatched opening symbol before it, and reports that symbol with its
    residue index, whatever opening symbols are left unmatched. *)
Theorem unmatched_closing_is_the_first dotbracket start c idx :
  parse_dotbracket dotbracket start
    = Raise (ValueError (UnmatchedClosing c idx))
  ↔ ∃ k p r,
      cleaned dotbracket = p ++ closer k :: r
      ∧ c = closer k
      ∧ idx = start + Z.of_nat (length p)
      ∧ unmatched k p = 0%nat
      ∧ ¬ closing_without_opening p.
Proof.
  split.
  - destruct (parse_dotbracket_spec dotbracket start)
      as [pairs Hscan|pairs f k Hscan Hk|e Hscan]; [done..|].
    intros [= ->]. rewrite stacks0_shaped in Hscan.
    apply scan_raise_first in Hscan
      as (k & p & r & pairs' & f' & Hw & Hp & Hf' & [= -> ->]);
      [|apply cleaned_symbols].
    exists k, p, r. split_and!; [done..| |].
    + apply scan_ok in Hp as (f'' & Hf'' & Hlen & _).
      unfold unmatched. specialize (Hlen k). simpl in Hlen.
      by rewrite <-Hlen, <-(shaped_inj _ _ _ Hf''), Hf'.
    + apply scan_ok in Hp as (f'' & _ & _ & Hcl & _).
      intros (k' & p' & r' & -> & Hp'). by eapply Hcl.
  - intros (k & p & r & Hw & -> & -> & Hp & Hcl).
    pose proof (cleaned_symbols dotbracket) as Hs. rewrite Hw in Hs.
    apply Forall_app in Hs as [Hs _].
    destruct (scan_total p start [] Hs Hcl) as (pairs' & f' & Hscan).
    unfold parse_dotbracket. cbn zeta.
    rewrite Hw, scan_app, Hscan. cbn [mbind result_bind scan].
    rewrite step_closer_empty; [done|].
    rewrite stacks0_shaped in Hscan.
    apply scan_ok in Hscan as (f'' & Hf'' & Hlen & _).
    apply length_zero_iff_nil.
    rewrite (shaped_inj _ _ k Hf''), Hlen. apply Hp.
Qed.

Lemma check_closed_first f :
  (check_closed (shaped f) = Ok () ∧ ∀ k, f k = [])
  ∨ (∃ k, f k ≠ []
       ∧ (∀ k', (bracket_rank k' < bracket_rank k)%nat → f k' = [])
       ∧ check_closed (shaped f)
         = Raise (ValueError (UnmatchedOpening (opener k) (f k)))).
Proof.
  unfold shaped, brackets. cbn [fmap list_fmap check_closed].
  destruct (decide (f Round = [])) as [HR|HR].
  2:{ right. exists Round. rewrite bool_decide_eq_true_2 by done.
      split_and!; [done| |done]. intros []; simpl; lia. }
  destruct (decide (f Square = [])) as [HS|HS].
  2:{ right. exists Square.
      rewrite bool_decide_eq_false_2, bool_decide_eq_true_2 by auto.
      split_and!; [done| |done]. intros []; simpl; (done || lia). }
  destruct (decide (f Curly = [])) as [HC|HC].
  2:{ right. exists Curly.
      rewrite !bool_decide_eq_false_2, bool_decide_eq_true_2 by auto.
      split_and!; [done| |done]. intros []; simpl; (done || lia). }
  destruct (decide (f Angle = [])) as [HA|HA].
  2:{ right. exists Angle.
      rewrite !bool_decide_eq_false_2, bool_decide_eq_true_2 by auto.
      split_and!; [done| |done]. intros []; simpl; (done || lia). }
  left. rewrite !bool_decide_eq_false_2 by auto. split; [done|]. by intros [].
Qed.

(** X8: The error of an unmatched opening symbol comes only when no closing
    symbol lacks its opening symbol; it names the first bracket type, in
    the order ( [ { <, that has unmatched opening symbols, and lists the
    residue indices of these symbols in increasing order. *)
Theorem unmatched_opening_report dotbracket start c st :
  parse_dotbracket dotbracket start
    = Raise (ValueError (UnmatchedOpening c st)) →
  ∃ k, c = opener k
    ∧ ¬ closing_without_opening dotbracket
    ∧ (∀ k', (bracket_rank k' < bracket_rank k)%nat →
         unmatched k' dotbracket = 0%nat)
    ∧ length st = unmatched k dotbracket
    ∧ st ≠ []
    ∧ StronglySorted Z.lt st
    ∧ Forall (λ x, symbol_at start (cleaned dotbracket) x (opener k)) st.
Proof.
  unfold parse_dotbracket. cbn zeta.
  destruct (scan _ _ _) as [[pairs d]|e] eqn:Hscan; cbn [mbind result_bind].
  - destruct (scan_matching_invariant _ _ _ _ Hscan)
      as (f & -> & _ & Hst & _ & _ & Hsort & _).
    rewrite stacks0_shaped in Hscan.
    apply scan_ok in Hscan as (f' & Hf' & Hlen & Hcl & _).
    assert (∀ k, length (f k) = unmatched k dotbracket) as Hlen'.
    { intros k. rewrite <-unmatched_cleaned, (shaped_inj _ _ k Hf').
      apply Hlen. }
    destruct (check_closed_first f) as [[-> _]|(k & Hk & Hfirst & ->)];
      cbn [mbind result_bind]; [done|].
    intros [= <- <-]. exists k. split_and!; [done| | |done..| ].
    + rewrite <-closing_without_opening_cleaned.
      intros (k' & p & r & Hw & Hp). by eapply Hcl.
    + intros k' Hk'. by rewrite <-Hlen', (Hfirst k' Hk').
    + apply Forall_forall. intros x Hx. by apply Hst.
  - rewrite stacks0_shaped in Hscan.
    by apply scan_raise in Hscan as (k & p & r & _ & _ & ->);
      [|apply cleaned_symbols].
Qed.

Lemma unmatched_opening_report_witness :
  ∃ k, chr "[" = opener k
    ∧ ¬ closing_without_opening (str "<[.[]")
    ∧ (∀ k', (bracket_rank k' < bracket_rank k)%nat →
         unmatched k' (str "<[.[]") = 0%nat)
    ∧ length [2] = unmatched k (str "<[.[]")
    ∧ [2] ≠ []
    ∧ StronglySorted Z.lt [2]
    ∧ Forall (λ x, symbol_at 1 (cleaned (str "<[.[]")) x (opener k)) [2].
Proof.
  apply (unmatched_opening_report (str "<[.[]") 1). reflexivity.
Defined.

(** ** FASTA loading *)

Section fasta_facts.
Variable upper_other : char → list char.

Lemma join_empty_app a b : join [] (a ++ b) = join [] a ++ join [] b.
Proof.
  induction a as [|x [|y a] IH]; [done| |].
  - simpl. destruct b; simpl; by rewrite ?app_nil_r.
  - change (join [] ((x :: y :: a) ++ b)) with (x ++ [] ++ join [] ((y :: a) ++ b)).
    rewrite IH. simpl. by rewrite <-app_assoc.
Qed.

Lemma load_line_app line : ∀ seq_chars,
  load_line upper_other line seq_chars
  = seq_chars ++ load_line upper_other line [].
Proof.
  induction line as [|c line IH]; intros seq_chars; simpl.
  - by rewrite app_nil_r.
  - case_decide; [|done].
    by rewrite IH, (IH [_]), <-app_assoc.
Qed.

Lemma load_lines_app fh : ∀ seq_chars,
  load_lines upper_other fh seq_chars
  = seq_chars ++ load_lines upper_other fh [].
Proof.
  induction fh as [|line fh IH]; intros seq_chars; cbn [load_lines].
  - by rewrite app_nil_r.
  - cbn zeta. destruct (_ || _); [done|].
    by rewrite IH, (IH (load_line _ _ [])), load_line_app, <-app_assoc.
Qed.

Lemma load_lines_cat fh1 fh2 :
  load_lines upper_other (fh1 ++ fh2) []
  = load_lines upper_other fh1 [] ++ load_lines upper_other fh2 [].
Proof.
  induction fh1 as [|line fh1 IH]; [done|].
  cbn [app load_lines]. cbn zeta. destruct (_ || _); [done|].
  by rewrite load_lines_app, IH, (load_lines_app fh1 (load_line _ _ _)),
    <-app_assoc.
Qed.

(** X9: The sequence of several lines, or of several records, is the sequences
    of the parts in a row: records are not kept apart. *)
Theorem load_fasta_file_app fh1 fh2 :
  load_fasta_file upper_other (fh1 ++ fh2)
  = load_fasta_file upper_other fh1 ++ load_fasta_file upper_other fh2.
Proof.
  unfold load_fasta_file. by rewrite load_lines_cat, join_empty_app.
Qed.

Lemma load_line_letters line :
  Forall (λ cu, ∃ c, cu = [c] ∧ c ∈ str "ACGUT")
    (load_line upper_other line []).
Proof.
  induction line as [|c line IH]; simpl; [constructor|].
  case_decide as Hcu; [|done].
  rewrite load_line_app. apply Forall_app. split; [|done].
  apply Forall_singleton.
  repeat (apply elem_of_cons in Hcu as [->|Hcu]);
    [..|by apply elem_of_nil in Hcu];
    eexists; (split; [reflexivity|]); vm_compute; repeat constructor.
Qed.

Lemma load_lines_letters fh :
  Forall (λ cu, ∃ c, cu = [c] ∧ c ∈ str "ACGUT")
    (load_lines upper_other fh []).
Proof.
  induction fh as [|line fh IH]; cbn [load_lines]; [constructor|].
  cbn zeta. destruct (_ || _); [done|].
  rewrite load_lines_app. apply Forall_app. split; [|done].
  apply load_line_letters.
Qed.

Lemma join_empty_letters (P : char → Prop) parts :
  Forall (λ cu, ∃ c, cu = [c] ∧ P c) parts →
  Forall P (join [] parts) ∧ join [] parts = mjoin parts.
Proof.
  induction 1 as [|cu parts (c & -> & Hc) _ [IH1 IH2]]; [done|].
  destruct parts as [|cu' parts].
  - simpl. split; [by constructor|done].
  - change (join [] ([c] :: cu' :: parts)) with (c :: join [] (cu' :: parts)).
    split; [by constructor|]. by rewrite IH2.
Qed.

(** X10: Whatever the file holds, the loaded sequence is made of the five
    upper-case letters A, C, G, U, T. *)
Theorem load_fasta_file_alphabet fh :
  Forall (λ c, c ∈ str "ACGUT") (load_fasta_file upper_other fh).
Proof. apply join_empty_letters, load_lines_letters. Qed.

Lemma lstrip_no_space s : Forall (λ c, isspace c = false) s → lstrip s = s.
Proof. destruct 1 as [|c s Hc _]; [done|]. simpl. by rewrite Hc. Qed.

Lemma strip_no_space s : Forall (λ c, isspace c = false) s → strip s = s.
Proof.
  intros Hs. unfold strip, rstrip. rewrite (lstrip_no_space s Hs).
  rewrite lstrip_no_space by by apply Forall_reverse.
  apply reverse_involutive.
Qed.

Lemma nucleotide_letter_cases c :
  c ∈ nucleotide_letters →
  isspace c = false ∧ c ≠ chr ">"
  ∧ ∃ cu, upper upper_other [c] = [cu] ∧ cu ∈ str "ACGUT"
      ∧ cu = (if decide (chr "a" ≤ c ≤ chr "z")%N then c - 32 else c)%N.
Proof.
  intros Hc.
  repeat (apply elem_of_cons in Hc as [->|Hc]); [..|by apply elem_of_nil in Hc].
  all: split_and!; [done|done|].
  all: eexists; split_and!; [reflexivity| |reflexivity].
  all: vm_compute; repeat constructor.
Qed.

Lemma load_line_nucleotides line :
  Forall (λ c, c ∈ nucleotide_letters) line →
  load_line upper_other line []
  = (λ c, [if decide (chr "a" ≤ c ≤ chr "z")%N then c - 32 else c]%N) <$> line.
Proof.
  induction 1 as [|c line (_ & _ & cu & Hup & Hcu & ->)%nucleotide_letter_cases _ IH];
    [done|].
  cbn [load_line]. cbn zeta. rewrite Hup.
  rewrite decide_True.
  - by rewrite load_line_app, IH.
  - repeat (apply elem_of_cons in Hcu as [->|Hcu]);
      [..|by apply elem_of_nil in Hcu]; vm_compute; repeat constructor.
Qed.

Lemma load_fasta_file_nucleotides line :
  Forall (λ c, c ∈ nucleotide_letters) line →
  load_fasta_file upper_other [line]
  = (λ c, if decide (chr "a" ≤ c ≤ chr "z")%N then c - 32 else c)%N <$> line.
Proof.
  intros Hline. unfold load_fasta_file. cbn [load_lines]. cbn zeta.
  rewrite strip_no_space.
  2:{ eapply Forall_impl; [done|]. intros c Hc.
      by apply nucleotide_letter_cases in Hc as [? _]. }
  destruct Hline as [|c line Hc Hline]; [done|].
  rewrite (bool_decide_eq_false_2 (c :: line = [])) by done.
  unfold startswith. rewrite bool_decide_eq_false_2.
  2:{ intros [k [= -> _]]. by apply nucleotide_letter_cases in Hc as (_ & ? & _). }
  cbn [orb]. rewrite load_line_nucleotides by by constructor.
  generalize (c :: line). clear. intros l.
  induction l as [|c [|c' l] IH]; [done..|].
  rewrite !fmap_cons in *.
  change (join [] (?x :: ?y :: ?l)) with (x ++ [] ++ join [] (y :: l)).
  by rewrite IH.
Qed.
End fasta_facts.

Section fasta_more.
Variable upper_other : char → list char.

Lemma lstrip_spaces ws s :
  Forall (λ c, isspace c = true) ws → lstrip (ws ++ s) = lstrip s.
Proof. induction 1 as [|c ws Hc _ IH]; [done|]. simpl. by rewrite Hc. Qed.

Lemma strip_padded ws1 line ws2 :
  Forall (λ c, isspace c = true) ws1 →
  Forall (λ c, isspace c = false) line →
  Forall (λ c, isspace c = true) ws2 →
  strip (ws1 ++ line ++ ws2) = line.
Proof.
  intros H1 Hline H2. unfold strip, rstrip.
  rewrite lstrip_spaces by done.
  destruct Hline as [|c line Hc Hline].
  - assert (lstrip ws2 = []) as Hws2.
    { rewrite <-(app_nil_r ws2). by rewrite lstrip_spaces. }
    simpl. by rewrite Hws2.
  - simpl. rewrite Hc. rewrite app_comm_cons, reverse_app.
    rewrite lstrip_spaces by by apply Forall_reverse.
    rewrite lstrip_no_space.
    + apply reverse_involutive.
    + apply Forall_reverse. by constructor.
Qed.

(** X11: A line of nucleotide letters, in either case and with white space
    around it, such as the end of the line, is loaded as it stands with
    its lower-case letters in upper case. *)
Theorem load_fasta_file_sequence_line ws1 line ws2 :
  Forall (λ c, isspace c = true) ws1 →
  Forall (λ c, c ∈ nucleotide_letters) line →
  Forall (λ c, isspace c = true) ws2 →
  load_fasta_file upper_other [ws1 ++ line ++ ws2]
  = (λ c, if decide (chr "a" ≤ c ≤ chr "z")%N then c - 32 else c)%N <$> line.
Proof.
  intros H1 Hline H2.
  rewrite <-(load_fasta_file_nucleotides upper_other line Hline).
  unfold load_fasta_file. cbn [load_lines]. cbn zeta.
  assert (Forall (λ c, isspace c = false) line) as Hns.
  { eapply Forall_impl; [exact Hline|]. intros c Hc.
    by apply (nucleotide_letter_cases upper_other) in Hc as [? _]. }
  rewrite strip_padded by done. by rewrite strip_no_space by done.
Qed.
End fasta_more.

Lemma load_fasta_file_sequence_line_witness :
  load_fasta_file (λ c, [c]) [str " " ++ str "gAuTc" ++ [10%N]]
  = (λ c, if decide (chr "a" ≤ c ≤ chr "z")%N then c - 32 else c)%N
      <$> str "gAuTc".
Proof.
  apply (load_fasta_file_sequence_line (λ c, [c]) (str " ") (str "gAuTc") [10%N]);
    vm_compute; repeat constructor.
Defined.

(** ** Classes and warnings, pair by pair *)

Section classes.
Variable upper_other : char → list char.

Lemma bases_at_in_range seq start p :
  0 ≤ p.1 - start < Z.of_nat (length seq)
  ∧ 0 ≤ p.2 - start < Z.of_nat (length seq) →
  ∃ c1 c2, bases_at seq start p = Some (c1, c2)
    ∧ str_item seq (p.1 - start) = Ok [c1]
    ∧ str_item seq (p.2 - start) = Ok [c2].
Proof.
  intros [H1 H2]. unfold bases_at. rewrite decide_True by done.
  destruct (str_item_in_range seq _ H1) as (c1 & -> & ->).
  destruct (str_item_in_range seq _ H2) as (c2 & -> & ->).
  by exists c1, c2.
Qed.

Lemma infer_loop_eq seq start pairs : ∀ classes stderr,
  infer_loop upper_other pairs seq start classes stderr
  = Ok (classes ++ (class_of upper_other seq start <$> pairs),
        stderr ++ (pairs ≫= warning_of upper_other seq start)).
Proof.
  induction pairs as [|[i j] pairs IH]; intros classes stderr.
  - simpl. by rewrite !app_nil_r.
  - cbn [infer_loop]. cbn zeta. rewrite fmap_cons, bind_cons.
    case_bool_decide as Hrange.
    + rewrite IH, <-!app_assoc. unfold class_of, warning_of, bases_at. simpl.
      by rewrite decide_False.
    + destruct (bases_at_in_range seq start (i, j) Hrange)
        as (c1 & c2 & Hb & H1 & H2).
      simpl in H1, H2. rewrite H1, H2. cbn [mbind result_bind].
      rewrite IH, <-!app_assoc. unfold class_of, warning_of. rewrite Hb. simpl.
      destruct (infer_saenger_pair upper_other [c1] [c2]); [done|].
      by rewrite <-app_assoc.
Qed.

Lemma infer_saenger_for_pairs_eq pairs seq start :
  infer_saenger_for_pairs upper_other pairs seq start
  = Ok (class_of upper_other seq start <$> pairs,
        pairs ≫= warning_of upper_other seq start).
Proof. apply infer_loop_eq. Qed.

Lemma infer_saenger_pair_values b1 b2 :
  infer_saenger_pair upper_other b1 b2 ∈ [None; Some 19; Some 20; Some 28].
Proof.
  unfold infer_saenger_pair. cbn zeta.
  repeat case_decide; rewrite !elem_of_cons; auto.
Qed.

(** X12: Each class that [infer_saenger_for_pairs] returns is 19, 20, 28 or
    [None]. *)
Theorem classes_are_saenger_classes pairs seq start :
  ∃ classes stderr,
    infer_saenger_for_pairs upper_other pairs seq start = Ok (classes, stderr)
    ∧ Forall (λ sclass, sclass ∈ [None; Some 19; Some 20; Some 28]) classes.
Proof.
  eexists _, _. split; [apply infer_saenger_for_pairs_eq|].
  apply Forall_fmap, Forall_forall. intros p _. unfold class_of. simpl.
  destruct (bases_at seq start p) as [[c1 c2]|]; simpl.
  - apply infer_saenger_pair_values.
  - by left.
Qed.

(** X13: [infer_saenger_for_pairs] prints one warning for each pair that gets
    no class and none for the others: there are as many warnings as
    [None] classes. *)
Theorem one_warning_per_missing_class pairs seq start :
  ∃ classes stderr,
    infer_saenger_for_pairs upper_other pairs seq start = Ok (classes, stderr)
    ∧ length stderr = length (filter (λ sclass, sclass = None) classes).
Proof.
  eexists _, _. split; [apply infer_saenger_for_pairs_eq|].
  induction pairs as [|p pairs IH]; [done|].
  rewrite bind_cons, fmap_cons, length_app, filter_cons, IH.
  unfold class_of, warning_of.
  destruct (bases_at seq start p) as [[c1 c2]|]; simpl; [|done].
  by destruct (infer_saenger_pair upper_other [c1] [c2]).
Qed.

(** X14: The class of a pair does not depend on which of its two bases comes
    first, for strings of any kind. *)
Theorem infer_saenger_pair_symmetric b1 b2 :
  infer_saenger_pair upper_other b1 b2 = infer_saenger_pair upper_other b2 b1.
Proof.
  unfold infer_saenger_pair. cbn zeta.
  by rewrite (comm_L (∪) {[replace _ _ (upper upper_other b1)]}).
Qed.
End classes.

(** ** Sequence and structure together *)

Section loaded.
Variable upper_other : char → list char.

Lemma upper_case_nucleotide c : c ∈ str "ACGUT" → c ∈ nucleotide_letters.
Proof.
  intros Hc.
  repeat (apply elem_of_cons in Hc as [->|Hc]); [..|by apply elem_of_nil in Hc];
    vm_compute; repeat constructor.
Qed.

(** X15: On a loaded sequence every pair within the sequence gets the class of
    the table for its two letters. *)
Theorem loaded_pairs_follow_table fh pairs start :
  ∃ classes stderr,
    infer_saenger_for_pairs upper_other pairs
      (load_fasta_file upper_other fh) start = Ok (classes, stderr)
    ∧ ∀ idx p, pairs !! idx = Some p →
        0 ≤ p.1 - start
            < Z.of_nat (length (load_fasta_file upper_other fh))
        ∧ 0 ≤ p.2 - start
              < Z.of_nat (length (load_fasta_file upper_other fh)) →
        ∃ c1 c2 x y,
          bases_at (load_fasta_file upper_other fh) start p = Some (c1, c2)
          ∧ base_of c1 = Some x ∧ base_of c2 = Some y
          ∧ classes !! idx = Some (saenger_table x y).
Proof.
  eexists _, _. split; [apply infer_saenger_for_pairs_eq|].
  intros idx p Hp Hrange.
  destruct (bases_at_in_range _ _ _ Hrange) as (c1 & c2 & Hb & _).
  assert (c1 ∈ nucleotide_letters ∧ c2 ∈ nucleotide_letters) as [H1 H2].
  { unfold bases_at in Hb. rewrite decide_True in Hb by done.
    destruct (_ !! Z.to_nat (p.1 - start)) as [c1'|] eqn:Hc1; [|done].
    destruct (_ !! Z.to_nat (p.2 - start)) as [c2'|] eqn:Hc2; [|done].
    simpl in Hb. injection Hb as -> ->.
    pose proof (load_fasta_file_alphabet upper_other fh) as Hfh.
    rewrite Forall_forall in Hfh.
    apply list_elem_of_lookup_2, Hfh in Hc1, Hc2.
    split; by apply upper_case_nucleotide. }
  destruct (infer_saenger_pair_letters upper_other c1 c2 H1 H2)
    as (x & y & Hx & Hy & Hxy).
  exists c1, c2, x, y. split_and!; [done..|].
  rewrite list_lookup_fmap, Hp. simpl. unfold class_of. rewrite Hb. simpl.
  by rewrite Hxy.
Qed.

(** X16: When the sequence is at least as long as the cleaned structure, no
    pair of the structure is out of range: every warning is about a class
    that cannot be inferred. *)
Theorem no_range_warning_on_covering_sequence dotbracket start pairs seq :
  parse_dotbracket dotbracket start = Ok pairs →
  (count_dot_length dotbracket ≤ length seq)%nat →
  ∃ classes stderr,
    infer_saenger_for_pairs upper_other pairs seq start = Ok (classes, stderr)
    ∧ Forall (λ w, ∃ b1 b2, w = CannotInfer b1 b2) stderr.
Proof.
  intros (pairs0 & Hperm & _ & _ & Hb & _)%parse_ok_pairs Hlen.
  eexists _, _. split; [apply infer_saenger_for_pairs_eq|].
  apply Forall_forall. intros w ([i j] & Hw & Hp)%list_elem_of_bind.
  rewrite Hperm in Hp. apply Hb in Hp. unfold count_dot_length in Hlen.
  destruct (bases_at_in_range seq start (i, j)) as (c1 & c2 & Hc & _);
    [simpl; lia|].
  unfold warning_of in Hw. rewrite Hc in Hw.
  destruct (infer_saenger_pair upper_other [c1] [c2]).
  - by apply elem_of_nil in Hw.
  - apply list_elem_of_singleton in Hw. eauto.
Qed.
End loaded.

Lemma no_range_warning_on_covering_sequence_witness :
  ∃ classes stderr,
    infer_saenger_for_pairs (λ c, [c]) [(1, 5); (2, 4)] (str "GAAGCUU") 1
      = Ok (classes, stderr)
    ∧ Forall (λ w, ∃ b1 b2, w = CannotInfer b1 b2) stderr.
Proof.
  apply (no_range_warning_on_covering_sequence (λ c, [c]) (str "((.))") 1).
  - reflexivity.
  - vm_compute. lia.
Defined.

(** ** The Phenix text for any class list *)

Lemma format_loop_blocks chain saenger_list override pairs : ∀ idx out,
  (idx ≤ length saenger_list)%nat →
  format_loop idx pairs chain saenger_list override out
  = if decide (idx + length pairs ≤ length saenger_list)%nat
    then Ok (out ++ mjoin (zip_with
                             (λ p sclass,
                                base_pair_block chain
                                  (resolved_class override sclass) p)
                             pairs (drop idx saenger_list)))
    else Raise IndexError.
Proof.
  induction pairs as [|[i j] pairs IH]; intros idx out Hidx.
  - simpl. rewrite decide_True by lia. by rewrite app_nil_r.
  - cbn [format_loop]. cbn zeta. unfold list_item.
    destruct (saenger_list !! idx) as [sclass|] eqn:Hsclass;
      cbn [mbind result_bind].
    + rewrite (drop_S _ _ _ Hsclass).
      apply lookup_lt_Some in Hsclass. rewrite IH by lia.
      rewrite length_cons. destruct (decide (S idx + _ ≤ _)%nat).
      * rewrite decide_True by lia. cbn [zip_with mjoin list_join].
        unfold base_pair_block at 2, resolved_class.
        destruct override as [v|]; [|destruct sclass as [z|]];
          simpl; by rewrite <-!app_assoc.
      * by rewrite decide_False by lia.
    + apply lookup_ge_None in Hsclass. rewrite decide_False; [done|].
      rewrite length_cons. lia.
Qed.

(** X17: [format_phenix] writes one block for each pair, in the order of the
    pairs, with the class found at the same place of the class list and
    no class line where that class is [None]; classes beyond the pairs are
    ignored, and a class list shorter than the pairs raises [IndexError]
    whatever the override. *)
Theorem format_phenix_blocks pairs chain saenger_list override :
  format_phenix pairs chain saenger_list override
  = if decide (length pairs ≤ length saenger_list)%nat
    then Ok (join [10%N]
               (phenix_header
                ++ mjoin (zip_with
                            (λ p sclass,
                               base_pair_block chain
                                 (resolved_class override sclass) p)
                            pairs saenger_list)
                ++ phenix_footer))
    else Raise IndexError.
Proof.
  unfold format_phenix. cbn zeta. rewrite format_loop_blocks by lia.
  simpl. case_decide; [|done]. cbn [mbind result_bind].
  by rewrite <-!app_assoc.
Qed.

(** ** The script *)

Section script.
Variable upper_other : char → list char.



(** X19: What the script prints on [sys.stderr] depends on the two files and
    on [--start] only: an override with [--saenger] silences no warning,
    and neither does [--format qrnas], which prints no class. *)
Theorem main_warnings_ignore_options a a' fs :
  args_start a = args_start a' →
  run_stderr (main upper_other a fs) = run_stderr (main upper_other a' fs).
Proof.
  intros Hstart. unfold main. rewrite <-Hstart.
  destruct (fasta_lines fs) as [fh|]; [|done].
  destruct (secstruct_text fs) as [dot|]; [|done].
  destruct (parse_dotbracket dot (args_start a)) as [pairs|e]; [|done].
  rewrite infer_saenger_for_pairs_eq. cbv beta iota zeta.
  rewrite !format_phenix_blocks.
  rewrite !(decide_True (P := (length pairs ≤ _)%nat))
    by by rewrite length_fmap.
  by repeat case_decide.
Qed.
End script.

Lemma main_warnings_ignore_options_witness :
  run_stderr
    (main (λ c, [c])
       (Args (str "s.fa") (str "s.db") (str "A") 1 Phenix None)
       (Files (Some [str ">x"; str "GAAGC"]) (Some (str "((.))"))))
  = run_stderr
      (main (λ c, [c])
         (Args (str "s.fa") (str "s.db") (str "B") 1 Qrnas (Some (str "19")))
         (Files (Some [str ">x"; str "GAAGC"]) (Some (str "((.))")))).
Proof. apply (main_warnings_ignore_options (λ c, [c])). reflexivity. Defined.

(** ** Reading the QRNAS lines back *)

Lemma chr_inj : Inj (=) (=) chr.
Proof.
  intros a b Hab. unfold chr in Hab.
  by rewrite <-(ascii_N_embedding a), <-(ascii_N_embedding b), Hab.
Qed.

Lemma str_inj : Inj (=) (=) str.
Proof.
  intros s1 s2 Hs. unfold str in Hs.
  rewrite <-(string_of_list_ascii_of_string s1),
    <-(string_of_list_ascii_of_string s2).
  f_equal. revert Hs.
  generalize (list_ascii_of_string s1) (list_ascii_of_string s2).
  intros l1. induction l1 as [|a l1 IH]; intros [|b l2] Hl; try done.
  injection Hl as ?%chr_inj ?%IH. by subst.
Qed.

Lemma format_int_inj : Inj (=) (=) format_int.
Proof.
  intros i j Hij%str_inj. apply DecimalZ.to_int_inj.
  assert (∀ z, Z.to_int z ≠ Decimal.Pos Decimal.Nil
               ∧ Z.to_int z ≠ Decimal.Neg Decimal.Nil) as Hnil.
  { intros [|p|p]; simpl; split; try done;
      intros [= Hp]; by apply DecimalPos.Unsigned.to_uint_nonnil in Hp. }
  destruct (Hnil i) as [??], (Hnil j) as [??].
  apply (inj Some).
  rewrite <-(NilZero.isi (Z.to_int i)), <-(NilZero.isi (Z.to_int j)) by done.
  by rewrite Hij.
Qed.

Lemma string_of_uint_no_space d :
  chr " " ∉ str (NilEmpty.string_of_uint d).
Proof.
  unfold str. induction d; simpl; rewrite ?elem_of_cons;
    try (intros [?|?]; [done|by apply IHd]).
  apply not_elem_of_nil.
Qed.

Lemma format_int_no_space i : chr " " ∉ format_int i.
Proof.
  unfold format_int.
  assert (∀ d, chr " " ∉ str (NilZero.string_of_uint d)) as Huint.
  { intros d. destruct d; try apply string_of_uint_no_space.
    vm_compute. by intros [?|?%elem_of_nil]%elem_of_cons. }
  destruct (Z.to_int i) as [d|d]; simpl; [apply Huint|].
  unfold str. simpl. rewrite elem_of_cons. intros [?|?]; [done|].
  by apply (Huint d).
Qed.

Lemma app_cons_inj_no_sep {A} (sep : A) a b x y :
  sep ∉ a → sep ∉ b → a ++ sep :: x = b ++ sep :: y → a = b ∧ x = y.
Proof.
  revert b. induction a as [|c a IH]; intros [|c' b] Ha Hb; simpl.
  - by intros [= ->].
  - intros [= <- _]. destruct Hb. by left.
  - intros [= -> _]. destruct Ha. by left.
  - intros [= -> Hab]. apply IH in Hab as [-> ->]; [done|..].
    + intros ?. apply Ha. by right.
    + intros ?. apply Hb. by right.
Qed.

Lemma qrnas_line_inj chain i j i' j' :
  str "BASEPAIR   " ++ chain ++ str "/" ++ format_int i
    ++ str "   " ++ chain ++ str "/" ++ format_int j
  = str "BASEPAIR   " ++ chain ++ str "/" ++ format_int i'
      ++ str "   " ++ chain ++ str "/" ++ format_int j' →
  i = i' ∧ j = j'.
Proof.
  intros Hline. do 3 apply app_inv_head in Hline.
  change (str "   " ++ ?l) with (chr " " :: str "  " ++ l) in Hline.
  apply app_cons_inj_no_sep in Hline as [Hi%format_int_inj Hline];
    [|apply format_int_no_space..].
  do 3 apply app_inv_head in Hline. by apply format_int_inj in Hline.
Qed.

(** X20: The pairs can be read back from the QRNAS lines of a chain: lists of
    pairs with the same lines are the same. *)
Theorem format_qrnas_injective chain pairs pairs' :
  format_qrnas pairs chain = format_qrnas pairs' chain → pairs = pairs'.
Proof.
  unfold format_qrnas. apply list_fmap_eq_inj.
  intros [i j] [i' j'] [-> ->]%qrnas_line_inj. done.
Qed.

Lemma format_qrnas_injective_witness : [(1, 5); (2, 4)] = [(1, 5); (2, 4)].
Proof. apply (format_qrnas_injective (str "A")). reflexivity. Defined.

(** ** The length of a structure *)

(** X21: [count_dot_length] counts the symbol characters, wherever other
    characters and white space stand: the count of two strings in a row is
    the sum of their counts. *)
Theorem count_dot_length_app s1 s2 :
  count_dot_length (s1 ++ s2)
  = (count_dot_length s1 + count_dot_length s2)%nat.
Proof. unfold count_dot_length. by rewrite cleaned_app, length_app. Qed.
